(** * url-rewrite: the CloudFront viewer-request function of the image CDN

    A shallow embedding of [src/url-rewrite/index.js] together with the
    properties of its specification.  The file has three layers:

    - [Module JS]: the part of the ECMAScript runtime the function calls
      ([parseInt], [toLowerCase], [encodeURIComponent], [toString],
      property access, truthiness, [typeof]), with abrupt completions
      (thrown errors) made explicit;
    - the three functions of the source, [parsePositiveInt],
      [getBestFormatFromAcceptHeader] and [handler], written statement by
      statement after the source;
    - the theorems.

    Strings are [string]s holding the UTF-8 bytes of the JavaScript string.
    Every comparison the source makes is against an ASCII literal, so
    working on bytes is exact (see the notes at [toLowerCase]). *)

From Stdlib Require Import ZArith String Ascii List DecimalString DecimalPos Lia.
From stdpp Require Import base option gmap strings list.

Local Open Scope string_scope.
Local Open Scope Z_scope.
Set Warnings "-register-all".

(* ===================================================================== *)
(** * The runtime *)
(* ===================================================================== *)

Module JS.

(** ** Completions

    A JavaScript expression either completes normally with a value or
    abruptly with a thrown error.  The only error the source can raise is a
    [TypeError] (reading a property of [null], calling a non-function). *)

Inductive error := TypeError.

Inductive completion (A : Type) : Type :=
| Normal (a : A)
| Throw (e : error).
Arguments Normal {A} a.
Arguments Throw {A} e.

#[global] Instance completion_ret : MRet completion := @Normal.

#[global] Instance completion_bind : MBind completion :=
  fun A B (k : A -> completion B) (c : completion A) =>
    match c with
    | Normal a => k a
    | Throw e => Throw e
    end.

Definition returns {A} (c : completion A) : Prop := exists a, c = Normal a.

(** ** Dynamically typed values

    The headers argument of the negotiator is inspected with [typeof],
    truthiness tests, property reads and a method call, so it is modelled
    as a JSON value, which is what an event carries: [undefined], [null],
    booleans, numbers (integers stand for them), strings, arrays, and plain
    objects (own enumerable properties in enumeration order).  Functions,
    accessors and boxed primitives are not part of the model. *)

Inductive val :=
| Undefined
| Null
| Bool (b : bool)
| Num (n : Z)
| Str (s : string)
| Arr (items : list val)
| Obj (props : list (string * val)).

Definition typeof (v : val) : string :=
  match v with
  | Undefined => "undefined"
  | Null => "object"
  | Bool _ => "boolean"
  | Num _ => "number"
  | Str _ => "string"
  | Arr _ => "object"
  | Obj _ => "object"
  end.

(** [ToBoolean]. *)
Definition truthy (v : val) : bool :=
  match v with
  | Undefined | Null => false
  | Bool b => b
  | Num n => negb (Z.eqb n 0)
  | Str s => negb (String.eqb s "")
  | Arr _ => true
  | Obj _ => true
  end.

(** Own-property lookup in a property list. *)
Fixpoint own {A} (k : string) (props : list (string * A)) : option A :=
  match props with
  | [] => None
  | (k', v) :: rest => if String.eqb k' k then Some v else own k rest
  end.

(** [v[k]] for a property name [k] that no built-in prototype defines
    (the source reads ['accept'] and ['value'] only): reading from
    [undefined] or [null] throws, a primitive is boxed and has no such
    property, nor has an array (its properties are its indices and
    [length]), a plain object yields its own property or [undefined]. *)
Definition get (v : val) (k : string) : completion val :=
  match v with
  | Undefined | Null => Throw TypeError
  | Bool _ | Num _ | Str _ | Arr _ => Normal Undefined
  | Obj props => Normal (default Undefined (own k props))
  end.

(** [obj.hasOwnProperty(k)] on a plain object given by its own properties.
    The method is looked up on the object first: an own property named
    [hasOwnProperty] shadows [Object.prototype.hasOwnProperty], and since
    the model has no function values, calling it throws. *)
Definition call_hasOwnProperty {A} (obj : list (string * A)) (k : string)
  : completion bool :=
  match own "hasOwnProperty" obj with
  | Some _ => Throw TypeError
  | None => Normal (bool_decide (is_Some (own k obj)))
  end.

(** ** Strings *)

Definition code (c : ascii) : N := N_of_ascii c.

Definition between (lo hi : N) (c : ascii) : bool :=
  ((lo <=? code c) && (code c <=? hi))%N.

Definition is_upper : ascii -> bool := between 65 90.
Definition is_lower : ascii -> bool := between 97 122.
Definition is_digit : ascii -> bool := between 48 57.

Definition lower_char (c : ascii) : ascii :=
  if is_upper c then ascii_of_N (code c + 32) else c.

(** [String.prototype.toLowerCase].  Bytes of multi-byte characters are left
    alone.  The real function also maps non-ASCII letters, but the only
    non-ASCII characters whose lower case contains an ASCII letter are
    U+212A (to k) and U+0130 (to i followed by U+0307); no literal the
    source compares against contains a k, and the second never yields a
    pure ASCII string, so every comparison in the source has the same
    outcome. *)
Fixpoint toLowerCase (s : string) : string :=
  match s with
  | "" => ""
  | String c r => String (lower_char c) (toLowerCase r)
  end.

(** [s.indexOf(needle) !== -1]. *)
Definition includes (needle s : string) : bool :=
  match index 0 needle s with
  | Some _ => true
  | None => false
  end.

(** [Array.prototype.indexOf(needle) !== -1]: some item is strictly equal
    to the string [needle]. *)
Definition has_item (needle : string) (items : list val) : bool :=
  existsb (fun v => match v with
                    | Str s => String.eqb s needle
                    | _ => false
                    end) items.

(** The method call [v.indexOf(needle) !== -1].  A string searches for a
    substring, an array for an item; no other value of the model has the
    method (a plain object holds no function), and calling it throws. *)
Definition call_indexOf (v : val) (needle : string) : completion bool :=
  match v with
  | Str s => Normal (includes needle s)
  | Arr items => Normal (has_item needle items)
  | _ => Throw TypeError
  end.

(** [Array.prototype.join]. *)
Definition join (sep : string) (l : list string) : string := String.concat sep l.

(** ** Numbers

    The numbers of the source are integers; they are modelled as [Z].
    [parseInt] really returns the double nearest to the integer read; the
    source compares it with 0 and takes the minimum with a bound of at most
    4000, both of which are unaffected by that rounding, so the exact
    integer stands for it.  Up to 2^53 every integer is a double and the
    model is the function itself; statements about the value read without
    a bound, and about [toString], are made within that range. *)

Definition digit_value (c : ascii) : Z := Z.of_N (code c) - 48.

(** [WhiteSpace] and [LineTerminator] characters, as UTF-8 byte patterns. *)
Definition white1 (a : ascii) : bool :=
  let n := code a in
  ((9 <=? n) && (n <=? 13) || (n =? 32))%N.

Definition white2 (a b : ascii) : bool :=
  ((code a =? 194) && (code b =? 160))%N.                       (* U+00A0 *)

Definition white3 (a b c : ascii) : bool :=
  let '(x, y, z) := (code a, code b, code c) in
  ((x =? 225) && (y =? 154) && (z =? 128)                        (* U+1680 *)
   || (x =? 226) && (y =? 128) && ((128 <=? z) && (z <=? 138))  (* U+2000..200A *)
   || (x =? 226) && (y =? 128) && ((z =? 168) || (z =? 169))    (* U+2028, U+2029 *)
   || (x =? 226) && (y =? 128) && (z =? 175)                    (* U+202F *)
   || (x =? 226) && (y =? 129) && (z =? 159)                    (* U+205F *)
   || (x =? 227) && (y =? 128) && (z =? 128)                    (* U+3000 *)
   || (x =? 239) && (y =? 187) && (z =? 191))%N.                (* U+FEFF *)

Fixpoint strip_white (s : string) : string :=
  match s with
  | String a r1 =>
      if white1 a then strip_white r1 else
      match r1 with
      | String b r2 =>
          if white2 a b then strip_white r2 else
          match r2 with
          | String c r3 => if white3 a b c then strip_white r3 else s
          | "" => s
          end
      | "" => s
      end
  | "" => s
  end.

(** Value of the longest prefix of decimal digits, most significant first. *)
Fixpoint digits_value (acc : Z) (s : string) : Z :=
  match s with
  | String c r => if is_digit c then digits_value (10 * acc + digit_value c) r else acc
  | "" => acc
  end.

Definition starts_with_digit (s : string) : bool :=
  match s with
  | String c _ => is_digit c
  | "" => false
  end.

Definition strip_sign (s : string) : Z * string :=
  match s with
  | String c r =>
      if Ascii.eqb c "-" then (-1, r)
      else if Ascii.eqb c "+" then (1, r)
      else (1, s)
  | "" => (1, s)
  end.

(** [parseInt(s, 10)]; [None] is [NaN].  Leading white space is skipped, an
    optional sign is read, then the longest prefix of decimal digits; no
    digit at that position gives [NaN]. *)
Definition parseInt (s : string) : option Z :=
  let '(sign, body) := strip_sign (strip_white s) in
  if starts_with_digit body then Some (sign * digits_value 0 body) else None.

(** [Number.prototype.toString] on an integer: its decimal digits.  The
    real function does so below 10^21 and uses an exponent from there on;
    the handler applies it to values between 1 and 4000. *)
Definition toString (n : Z) : string := NilZero.string_of_int (Z.to_int n).

(** ** encodeURIComponent

    Every byte outside the unreserved set is written as [%XX] with
    upper-case hexadecimal digits; on the UTF-8 bytes of a string this is
    the function of the standard. *)

Definition is_mark (c : ascii) : bool :=
  existsb (Ascii.eqb c) (list_ascii_of_string "-_.!~*'()").

Definition unreserved (c : ascii) : bool :=
  is_upper c || is_lower c || is_digit c || is_mark c.

Definition hex_digit (n : N) : ascii :=
  if (n <? 10)%N then ascii_of_N (48 + n) else ascii_of_N (55 + n).

Definition percent (c : ascii) : string :=
  String "%" (String (hex_digit (code c / 16)) (String (hex_digit (code c mod 16)) "")).

Fixpoint encodeURIComponent (s : string) : string :=
  match s with
  | "" => ""
  | String c r =>
      if unreserved c then String c (encodeURIComponent r)
      else percent c ++ encodeURIComponent r
  end.

End JS.

Import JS.

(* ===================================================================== *)
(** * The program *)
(* ===================================================================== *)

(** ** Data

    A query-string entry is the object [{value: ...}] the platform builds
    for a parameter; a query string is the list of its own properties in
    enumeration order (the names of an object are pairwise distinct, and
    they are case sensitive).  [querystring] is [None] when the request has
    no such property.  [headers] is an arbitrary value, since the negotiator
    tests its shape itself. *)

Record Entry := { value : string }.

Record Request := {
  uri : string;
  querystring : option (list (string * Entry));
  headers : val
}.

Record Event := { request : Request }.

(** The two module-level variables. *)
Record Globals := {
  SUPPORTED_FORMATS : list string;
  MAX_DIMENSION : Z
}.

Definition module_load : Globals := {|
  SUPPORTED_FORMATS := ["auto"; "jpeg"; "webp"; "avif"; "png"; "svg"; "gif"];
  MAX_DIMENSION := 4000
|}.

(** ** parsePositiveInt

    [max] is [Some m] when [typeof max === 'number']; the result [None] is
    [null]. *)
Definition parsePositiveInt (value : string) (max : option Z) : option Z :=
  match parseInt value with
  | None => None
  | Some parsed =>
      if parsed <=? 0 then None
      else match max with
           | Some m => Some (Z.min parsed m)
           | None => Some parsed
           end
  end.

(** ** getBestFormatFromAcceptHeader *)
Definition getBestFormatFromAcceptHeader (headers : val) : completion string :=
  if negb (String.eqb (typeof headers) "object") then Normal "jpeg" else
  accept ← get headers "accept";
  if negb (truthy accept) then Normal "jpeg" else
  v ← get accept "value";
  if negb (truthy v) then Normal "jpeg" else
  let acceptHeaderValue := v in
  webp ← call_indexOf acceptHeaderValue "image/webp";
  if webp : bool then Normal "webp" else Normal "jpeg".

(** ** handler *)

(** The state of the loop: [normalizedOperations] and [formatFromQuery]. *)
Abbreviation LoopState := (gmap string string * option string)%type.

(** [if (n) normalizedOperations[key] = n.toString();] *)
Definition assign_if (key : string) (n : option Z)
    (normalizedOperations : gmap string string) : gmap string string :=
  match n with
  | Some n =>
      if truthy (Num n) then <[key := toString n]> normalizedOperations
      else normalizedOperations
  | None => normalizedOperations
  end.

(** Line 53: [value && SUPPORTED_FORMATS.indexOf(value.toLowerCase()) !== -1]. *)
Definition accepted_format (g : Globals) (value : string) : bool :=
  truthy (Str value)
  && existsb (String.eqb (toLowerCase value)) (SUPPORTED_FORMATS g).

(** The body of the [for] loop for one enumerated property (lines 50-77). *)
Definition loop_body (g : Globals) (operation : string) (entry : Entry)
    (st : LoopState) : LoopState :=
  let '(normalizedOperations, formatFromQuery) := st in
  let value := value entry in
  let name := toLowerCase operation in
  if String.eqb name "format" then
    if accepted_format g value then
      let formatFromQuery := toLowerCase value in
      (normalizedOperations,
       if String.eqb formatFromQuery "auto" then None else Some formatFromQuery)
    else st
  else if String.eqb name "width" then
    let width := parsePositiveInt value (Some (MAX_DIMENSION g)) in
    (assign_if "width" width normalizedOperations, formatFromQuery)
  else if String.eqb name "height" then
    let height := parsePositiveInt value (Some (MAX_DIMENSION g)) in
    (assign_if "height" height normalizedOperations, formatFromQuery)
  else if String.eqb name "quality" then
    let quality := parsePositiveInt value (Some 100) in
    (assign_if "quality" quality normalizedOperations, formatFromQuery)
  else st.

(** [for (var operation in obj) if (obj.hasOwnProperty(operation)) ...]:
    [todo] are the properties still to enumerate, each with the entry
    [obj[operation]]. *)
Fixpoint for_in (g : Globals) (obj todo : list (string * Entry))
    (st : LoopState) : completion LoopState :=
  match todo with
  | [] => Normal st
  | (operation, entry) :: rest =>
      has ← call_hasOwnProperty obj operation;
      for_in g obj rest (if has : bool then loop_body g operation entry st else st)
  end.

(** Lines 44-80. *)
Definition normalize (g : Globals) (request : Request) : completion LoopState :=
  match querystring request with
  | Some qs => for_in g qs qs (∅, None)
  | None => Normal (∅, None)
  end.

(** Line 83: [formatFromQuery || getBestFormatFromAcceptHeader(headers)]. *)
Definition finalFormat (formatFromQuery : option string) (headers : val)
  : completion string :=
  match formatFromQuery with
  | Some f =>
      if truthy (Str f) then Normal f else getBestFormatFromAcceptHeader headers
  | None => getBestFormatFromAcceptHeader headers
  end.

(** The operations mapping after line 84. *)
Definition operations (g : Globals) (request : Request)
  : completion (gmap string string) :=
  '(normalizedOperations, formatFromQuery) ← normalize g request;
  format ← finalFormat formatFromQuery (headers request);
  Normal (<["format" := format]> normalizedOperations).

(** [if (ops.key) array.push('key=' + encodeURIComponent(ops.key))]. *)
Definition push_if (normalizedOperations : gmap string string) (key : string)
  : list string :=
  match normalizedOperations !! key with
  | Some v => if truthy (Str v) then [key ++ "=" ++ encodeURIComponent v] else []
  | None => []
  end.

(** Lines 87-91. *)
Definition normalizedOperationsArray (normalizedOperations : gmap string string)
  : list string :=
  (push_if normalizedOperations "format"
   ++ push_if normalizedOperations "quality"
   ++ push_if normalizedOperations "width"
   ++ push_if normalizedOperations "height")%list.

(** Lines 41-99, with the module variables as [g]. *)
Definition handler_in (g : Globals) (event : Event) : completion Request :=
  let request := request event in
  let originalImagePath := uri request in
  normalizedOperations ← operations g request;
  Normal {|
    uri := originalImagePath ++ "/"
           ++ encodeURIComponent (join "," (normalizedOperationsArray normalizedOperations));
    querystring := Some [];
    headers := headers request
  |}.

(** The handler as deployed: the module variables have their initial values. *)
Definition handler (event : Event) : completion Request :=
  handler_in module_load event.

(** The parameters of a request: the enumerated properties of its query
    string, none when there is no query string. *)
Definition parameters (request : Request) : list (string * Entry) :=
  default [] (querystring request).

(** The loop without the [hasOwnProperty] test, used to reason about it. *)
Definition iterate (g : Globals) (todo : list (string * Entry)) (st : LoopState)
  : LoopState :=
  fold_left (fun st p => loop_body g (fst p) (snd p) st) todo st.

(** A value is invalid when it is not numeric or parses to [n <= 0]. *)
Definition invalid (value : string) : Prop :=
  forall n, parseInt value = Some n -> n <= 0.

(** The recognised integer parameters and their upper bounds. *)
Definition bounds (g : Globals) : list (string * Z) :=
  [("width", MAX_DIMENSION g); ("height", MAX_DIMENSION g); ("quality", 100)].

(** A query string with a parameter named [hasOwnProperty] shadows the
    method the loop calls. *)
Definition shadowed (qs : list (string * Entry)) : Prop :=
  is_Some (own "hasOwnProperty" qs).

(** [formatFromQuery], when set, is a supported format other than auto. *)
Definition explicit (g : Globals) (formatFromQuery : option string) : Prop :=
  forall f, formatFromQuery = Some f -> In f (SUPPORTED_FORMATS g) /\ f <> "auto".

(** All values of an operations mapping are non-empty, hence truthy. *)
Definition all_truthy (m : gmap string string) : Prop :=
  forall k v, m !! k = Some v -> v <> "".

(** [headers.accept.value] when every step of that path exists, [undefined]
    otherwise: the raw value of the Accept header. *)
Definition acceptValue (headers : val) : val :=
  match headers with
  | Obj props =>
      match own "accept" props with
      | Some (Obj entry) => default Undefined (own "value" entry)
      | _ => Undefined
      end
  | _ => Undefined
  end.

(** The values with an [indexOf] method: strings and arrays. *)
Definition has_indexOf (v : val) : bool :=
  match v with
  | Str _ | Arr _ => true
  | _ => false
  end.

(** The raw Accept value is a string containing [image/webp]. *)
Definition accepts_webp (headers : val) : bool :=
  match acceptValue headers with
  | Str s => includes "image/webp" s
  | _ => false
  end.

(** A string of decimal digits only. *)
Definition all_digits (s : string) : bool :=
  forallb is_digit (list_ascii_of_string s).

(** The request with its headers replaced. *)
Definition with_headers (request : Request) (h : val) : Request :=
  {| uri := uri request; querystring := querystring request; headers := h |}.

(** The path segment in the words of the specification: the pairs
    [key=value] of the keys present among format, quality, width, height,
    in that order, key and value each percent-encoded, joined by commas,
    and the whole percent-encoded again. *)
Definition spec_pair (ops : gmap string string) (key : string) : list string :=
  match ops !! key with
  | Some v => [encodeURIComponent key ++ "=" ++ encodeURIComponent v]
  | None => []
  end.

Definition spec_segment (ops : gmap string string) : string :=
  encodeURIComponent
    (join "," (flat_map (spec_pair ops) ["format"; "quality"; "width"; "height"])).

(** ** Sample inputs *)

(** The query string [k1=v1&k2=v2...] as the platform presents it. *)
Definition query (l : list (string * string)) : option (list (string * Entry)) :=
  Some (map (fun p => (fst p, {| value := snd p |})) l).

(** The headers [{accept: {value: s}}]. *)
Definition accept (s : string) : val :=
  Obj [("accept", Obj [("value", Str s)])].

(** [?width=100&WIDTH=200]: two parameters, both named width up to case. *)
Definition two_widths : Request := {|
  uri := "/img/cat.png";
  querystring := query [("width", "100"); ("WIDTH", "200")];
  headers := accept "image/webp"
|}.

(** [?Width=5&width=abc]: the second width is not numeric. *)
Definition width_then_garbage : Request := {|
  uri := "/img/cat.png";
  querystring := query [("Width", "5"); ("width", "abc")];
  headers := accept "image/webp"
|}.

(** The example of the specification. *)
Definition cat (h : val) : Event := {|
  request := {|
    uri := "/img/cat.png";
    querystring :=
      query [("width", "300"); ("height", "9999"); ("quality", "0"); ("format", "png")];
    headers := h
  |}
|}.

(** The request the specification expects for [cat]. *)
Definition cat_rewritten (h : val) : Request := {|
  uri := "/img/cat.png/" ++ encodeURIComponent "format=png,width=300,height=4000";
  querystring := Some [];
  headers := h
|}.

(** [?format=webp&FORMAT=png]. *)
Definition webp_then_png : Request := {|
  uri := "/img/cat.png";
  querystring := query [("format", "webp"); ("FORMAT", "png")];
  headers := accept "image/webp"
|}.

(** [?Format=WebP], with an Accept header that lists no image type. *)
Definition mixed_case_webp : Request := {|
  uri := "/a.jpg";
  querystring := query [("Format", "WebP")];
  headers := accept "text/html"
|}.

(** [?format=png&FORMAT=Auto], with an Accept header that lists webp. *)
Definition png_then_auto : Request := {|
  uri := "/a.jpg";
  querystring := query [("format", "png"); ("FORMAT", "Auto")];
  headers := accept "image/avif,image/webp"
|}.

(** [?format=auto&Format=png]. *)
Definition auto_then_png : Request := {|
  uri := "/img/cat.png";
  querystring := query [("format", "auto"); ("Format", "png")];
  headers := accept "image/webp"
|}.

(** [?hasOwnProperty=1], with an ordinary Accept header. *)
Definition named_hasOwnProperty : Event := {|
  request := {|
    uri := "/img/cat.png";
    querystring := query [("hasOwnProperty", "1")];
    headers := accept "text/html,image/webp"
  |}
|}.

(* ===================================================================== *)
(** * Further notions used by the properties of the code *)
(* ===================================================================== *)

(** The characters of a string. *)
Definition chars (s : string) : list ascii := list_ascii_of_string s.

(** A parameter the loop acts on: a [format] with an accepted value, or a
    width, height or quality whose value [parsePositiveInt] does not
    reject. *)
Definition effective (g : Globals) (p : string * Entry) : bool :=
  let name := toLowerCase (fst p) in
  let v := value (snd p) in
  if String.eqb name "format" then accepted_format g v
  else if String.eqb name "width" || String.eqb name "height" then
    bool_decide (is_Some (parsePositiveInt v (Some (MAX_DIMENSION g))))
  else if String.eqb name "quality" then
    bool_decide (is_Some (parsePositiveInt v (Some 100)))
  else false.

(** The request with another query string. *)
Definition with_query (request : Request) (qs : list (string * Entry)) : Request :=
  {| uri := uri request; querystring := Some qs; headers := headers request |}.

(** A parameter in canonical letter case: the name in lower case, and the
    value too when the parameter is a [format].  Applied to a query string
    whose names are pairwise distinct up to letter case, it gives one with
    pairwise distinct names. *)
Definition canonical (p : string * Entry) : string * Entry :=
  let name := toLowerCase (fst p) in
  (name,
   if String.eqb name "format" then {| value := toLowerCase (value (snd p)) |}
   else snd p).

(** The effective parameters written to [key]. *)
Definition writes (g : Globals) (key : string) (p : string * Entry) : bool :=
  String.eqb (toLowerCase (fst p)) key && effective g p.

(** What the loop computes, said without the loop: [formatFromQuery] is the
    lower-cased value of the last effective [format] parameter, unless that
    is auto; an integer key holds the clamped value of the last effective
    parameter of that name. *)
Definition formatFromQuery_spec (g : Globals) (qs : list (string * Entry))
  : option string :=
  match last (List.filter (writes g "format") qs) with
  | Some p =>
      let f := toLowerCase (value (snd p)) in
      if String.eqb f "auto" then None else Some f
  | None => None
  end.

Definition integer_spec (g : Globals) (key : string) (bound : Z)
    (qs : list (string * Entry)) : option string :=
  match last (List.filter (writes g key) qs) with
  | Some p => toString <$> parsePositiveInt (value (snd p)) (Some bound)
  | None => None
  end.

(** An operations mapping read back as a query string, in the order of the
    segment. *)
Definition requery (ops : gmap string string) : list (string * Entry) :=
  flat_map (fun key => match ops !! key with
                       | Some v => [(key, {| value := v |})]
                       | None => []
                       end)
           ["format"; "quality"; "width"; "height"].

(** The characters that end or split a path segment or a pair. *)
Definition separators : list ascii :=
  ["/"; "?"; "#"; "&"; "="; ","; " "]%char.

(** A string without a comma. *)
Definition comma_free (s : string) : bool :=
  forallb (fun c => negb (Ascii.eqb c ",")) (chars s).

(** ** Events equal as events

    An object is a mapping: two objects are the same when they have the
    same own properties, whatever the order in which these are enumerated.
    Two query strings are the same when they hold the same entries, two
    headers values when they are equal or are objects with the same
    properties, and two requests when path, query string and headers
    are. *)
Definition same_query (q1 q2 : option (list (string * Entry))) : Prop :=
  match q1, q2 with
  | Some l1, Some l2 => Permutation l1 l2
  | None, None => True
  | _, _ => False
  end.

Definition same_headers (h1 h2 : val) : Prop :=
  h1 = h2
  \/ exists p1 p2, h1 = Obj p1 /\ h2 = Obj p2
                   /\ Permutation p1 p2 /\ NoDup (map fst p1).

Definition same_request (r1 r2 : Request) : Prop :=
  uri r1 = uri r2
  /\ same_query (querystring r1) (querystring r2)
  /\ same_headers (headers r1) (headers r2).

(** Two invocations end alike: both return, the same request, or both
    throw, the same error. *)
Definition same_result (c1 c2 : completion Request) : Prop :=
  match c1, c2 with
  | Normal r1, Normal r2 => same_request r1 r2
  | Throw e1, Throw e2 => e1 = e2
  | _, _ => False
  end.

(** [two_widths] with its two entries enumerated in the other order. *)
Definition widths_reordered : Request := {|
  uri := "/img/cat.png";
  querystring := query [("WIDTH", "200"); ("width", "100")];
  headers := accept "image/webp"
|}.

(** Two presentations of one event: [?width=10&format=png] with the headers
    host and accept, each mapping enumerated in two orders. *)
Definition event_one_order : Event := {|
  request := {|
    uri := "/a.jpg";
    querystring := query [("width", "10"); ("format", "png")];
    headers := Obj [("host", Obj [("value", Str "cdn.example")]);
                    ("accept", Obj [("value", Str "image/webp")])]
  |}
|}.

Definition event_other_order : Event := {|
  request := {|
    uri := "/a.jpg";
    querystring := query [("format", "png"); ("width", "10")];
    headers := Obj [("accept", Obj [("value", Str "image/webp")]);
                    ("host", Obj [("value", Str "cdn.example")])]
  |}
|}.

(* ===================================================================== *)
(** * Lemmas on the runtime *)
(* ===================================================================== *)

Section Runtime.

Lemma bind_Normal {A B} (c : completion A) (k : A -> completion B) (b : B) :
  c ≫= k = Normal b -> exists a, c = Normal a /\ k a = Normal b.
Proof. destruct c as [a|err]; simpl; [eauto | discriminate]. Qed.

Lemma own_In {A} (k : string) (v : A) (props : list (string * A)) :
  In (k, v) props -> is_Some (own k props).
Proof.
  induction props as [|[k' v'] rest IH]; simpl; [tauto|].
  intros [Heq | Hin].
  - inversion Heq; subst. rewrite String.eqb_refl. eauto.
  - destruct (String.eqb k' k); eauto.
Qed.

Lemma own_Some_In {A} (k : string) (v : A) (props : list (string * A)) :
  own k props = Some v -> In (k, v) props.
Proof.
  induction props as [|[k' v'] rest IH]; simpl; [discriminate|].
  destruct (String.eqb_spec k' k) as [->|Hne].
  - intros [= ->]. now left.
  - intros H. right. auto.
Qed.

Lemma toString_nonempty (n : Z) : toString n <> "".
Proof.
  unfold toString.
  destruct (Z.to_int n) as [d|d]; simpl; [|discriminate].
  unfold NilZero.string_of_uint. destruct d; discriminate.
Qed.

Lemma truthy_Str (s : string) : truthy (Str s) = true <-> s <> "".
Proof.
  unfold truthy. destruct (String.eqb_spec s "") as [->|Hne]; simpl.
  - split; [discriminate | intros H; now elim H].
  - split; [intros _; exact Hne | reflexivity].
Qed.

End Runtime.

(* ===================================================================== *)
(** * The loop over the query string *)
(* ===================================================================== *)

Section Loop.

Variable g : Globals.

Lemma for_in_unshadowed (obj todo : list (string * Entry)) (st : LoopState) :
  own "hasOwnProperty" obj = None ->
  incl todo obj ->
  for_in g obj todo st = Normal (iterate g todo st).
Proof.
  intros Hno. revert st.
  induction todo as [|[k e] rest IH]; intros st Hincl; [reflexivity|].
  simpl. unfold call_hasOwnProperty. rewrite Hno. simpl.
  assert (Hk : is_Some (own k obj)) by (apply (own_In k e), Hincl; now left).
  rewrite bool_decide_eq_true_2 by exact Hk.
  apply IH. intros x Hx. apply Hincl. now right.
Qed.

Lemma for_in_shadowed (obj todo : list (string * Entry)) (st : LoopState) :
  shadowed obj -> todo <> [] -> for_in g obj todo st = Throw TypeError.
Proof.
  intros [e He] Hne. destruct todo as [|[k e'] rest]; [congruence|].
  simpl. unfold call_hasOwnProperty. now rewrite He.
Qed.

Lemma shadowed_nonempty (qs : list (string * Entry)) : shadowed qs -> qs <> [].
Proof. intros [e He] ->. discriminate. Qed.

Lemma normalize_unshadowed (req : Request) :
  ~ shadowed (parameters req) ->
  normalize g req = Normal (iterate g (parameters req) (∅, None)).
Proof.
  unfold normalize, parameters, shadowed. intros Hno.
  destruct (querystring req) as [qs|]; simpl in *; [|reflexivity].
  apply for_in_unshadowed; [|apply incl_refl].
  destruct (own "hasOwnProperty" qs); [|reflexivity].
  exfalso. apply Hno. eauto.
Qed.

Lemma normalize_shadowed (req : Request) :
  shadowed (parameters req) -> normalize g req = Throw TypeError.
Proof.
  unfold normalize, parameters. intros Hsh.
  destruct (querystring req) as [qs|]; simpl in *.
  - apply for_in_shadowed; [exact Hsh | now apply shadowed_nonempty].
  - destruct Hsh as [e He]. discriminate.
Qed.

Lemma shadowed_dec (qs : list (string * Entry)) : {shadowed qs} + {~ shadowed qs}.
Proof.
  unfold shadowed. destruct (own "hasOwnProperty" qs); [left; eauto | right].
  intros [e He]. discriminate.
Qed.

Lemma normalize_Normal (req : Request) (st : LoopState) :
  normalize g req = Normal st ->
  ~ shadowed (parameters req) /\ st = iterate g (parameters req) (∅, None).
Proof.
  intros H. destruct (shadowed_dec (parameters req)) as [Hsh|Hno].
  - rewrite normalize_shadowed in H by exact Hsh. discriminate.
  - rewrite normalize_unshadowed in H by exact Hno. split; congruence.
Qed.

Lemma iterate_app (a b : list (string * Entry)) (st : LoopState) :
  iterate g (a ++ b) st = iterate g b (iterate g a st).
Proof. apply fold_left_app. Qed.

Lemma iterate_cons (k : string) (e : Entry) (rest : list (string * Entry))
    (st : LoopState) :
  iterate g ((k, e) :: rest) st = iterate g rest (loop_body g k e st).
Proof. reflexivity. Qed.

End Loop.

(* ===================================================================== *)
(** * One iteration, and what later iterations keep *)
(* ===================================================================== *)

Section Body.

Variable g : Globals.

Lemma parsePositiveInt_None (v : string) (max : option Z) :
  parsePositiveInt v max = None <-> invalid v.
Proof.
  unfold parsePositiveInt, invalid. destruct (parseInt v) as [p|].
  - destruct (Z.leb_spec p 0) as [Hle|Hgt].
    + split; [intros _ n [= <-]; exact Hle | reflexivity].
    + split.
      * destruct max; discriminate.
      * intros H. specialize (H p eq_refl). lia.
  - split; [intros _ n; discriminate | reflexivity].
Qed.

Lemma parsePositiveInt_Some (v : string) (n bound : Z) :
  parseInt v = Some n -> 1 <= n ->
  parsePositiveInt v (Some bound) = Some (Z.min n bound).
Proof.
  intros Hp Hn. unfold parsePositiveInt. rewrite Hp.
  destruct (Z.leb_spec n 0); [lia | reflexivity].
Qed.

Lemma assign_if_None (key : string) (m : gmap string string) :
  assign_if key None m = m.
Proof. reflexivity. Qed.

Lemma assign_if_Some (key : string) (n : Z) (m : gmap string string) :
  n <> 0 -> assign_if key (Some n) m = <[key := toString n]> m.
Proof.
  intros Hn. unfold assign_if, truthy.
  destruct (Z.eqb_spec n 0); [contradiction | reflexivity].
Qed.

Lemma assign_if_lookup_ne (k key : string) (n : option Z) (m : gmap string string) :
  k <> key -> assign_if k n m !! key = m !! key.
Proof.
  intros Hne. unfold assign_if. destruct n as [n|]; [|reflexivity].
  destruct (truthy (Num n)); [|reflexivity].
  now rewrite lookup_insert_ne.
Qed.

Lemma assign_if_truthy (k : string) (n : option Z) (m : gmap string string) :
  all_truthy m -> all_truthy (assign_if k n m).
Proof.
  intros Hm. unfold assign_if. destruct n as [n|]; [|exact Hm].
  destruct (truthy (Num n)); [|exact Hm].
  intros k' v. rewrite lookup_insert. case_decide.
  - intros [= <-]. apply toString_nonempty.
  - apply Hm.
Qed.

(** The three integer parameters are handled alike. *)
Lemma loop_body_bound (key : string) (bound : Z) (op : string) (e : Entry)
    (m : gmap string string) (f : option string) :
  In (key, bound) (bounds g) ->
  toLowerCase op = key ->
  loop_body g op e (m, f)
  = (assign_if key (parsePositiveInt (value e) (Some bound)) m, f).
Proof.
  intros Hin Hop. unfold loop_body. rewrite Hop.
  destruct Hin as [[= <- <-]|[[= <- <-]|[[= <- <-]|[]]]]; reflexivity.
Qed.

Lemma loop_body_other_key (key : string) (bound : Z) (op : string) (e : Entry)
    (st : LoopState) :
  In (key, bound) (bounds g) ->
  toLowerCase op <> key ->
  fst (loop_body g op e st) !! key = fst st !! key.
Proof.
  intros Hin Hop. destruct st as [m f]. unfold loop_body.
  destruct (String.eqb_spec (toLowerCase op) "format") as [E|_].
  { destruct (accepted_format g (value e)); reflexivity. }
  destruct Hin as [[= <- <-]|[[= <- <-]|[[= <- <-]|[]]]];
    repeat match goal with
    | |- context [String.eqb (toLowerCase op) ?s] =>
        destruct (String.eqb_spec (toLowerCase op) s); try contradiction
    end; simpl; try reflexivity; now apply assign_if_lookup_ne.
Qed.

Lemma loop_body_format (op : string) (e : Entry) (m : gmap string string)
    (f : option string) :
  toLowerCase op = "format" ->
  loop_body g op e (m, f)
  = if accepted_format g (value e)
    then (m, if String.eqb (toLowerCase (value e)) "auto" then None
             else Some (toLowerCase (value e)))
    else (m, f).
Proof. intros Hop. unfold loop_body. now rewrite Hop. Qed.

Lemma loop_body_not_format (op : string) (e : Entry) (st : LoopState) :
  toLowerCase op <> "format" -> snd (loop_body g op e st) = snd st.
Proof.
  intros Hop. destruct st as [m f]. unfold loop_body.
  destruct (String.eqb_spec (toLowerCase op) "format"); [contradiction|].
  repeat match goal with
  | |- context [String.eqb (toLowerCase op) ?s] =>
      destruct (String.eqb (toLowerCase op) s)
  end; reflexivity.
Qed.

Lemma loop_body_truthy (op : string) (e : Entry) (st : LoopState) :
  all_truthy (fst st) -> all_truthy (fst (loop_body g op e st)).
Proof.
  intros Hm. destruct st as [m f]. unfold loop_body.
  repeat match goal with
  | |- context [String.eqb (toLowerCase op) ?s] =>
      destruct (String.eqb (toLowerCase op) s)
  end; simpl; try (now apply assign_if_truthy); try exact Hm.
  destruct (accepted_format g (value e)); exact Hm.
Qed.

Lemma loop_body_explicit (op : string) (e : Entry) (st : LoopState) :
  explicit g (snd st) -> explicit g (snd (loop_body g op e st)).
Proof.
  intros Hf. destruct (String.eqb_spec (toLowerCase op) "format") as [E|E].
  - destruct st as [m f]. rewrite loop_body_format by exact E.
    destruct (accepted_format g (value e)) eqn:Hacc; [|exact Hf]. simpl.
    destruct (String.eqb_spec (toLowerCase (value e)) "auto") as [|Hauto];
      [discriminate|].
    intros f' [= <-]. split; [|exact Hauto].
    unfold accepted_format in Hacc. apply andb_true_iff in Hacc as [_ Hin].
    apply existsb_exists in Hin as (x & Hx & Heq).
    apply String.eqb_eq in Heq. now rewrite Heq.
  - now rewrite loop_body_not_format.
Qed.

(** Later parameters of the same name with an invalid value leave the key
    as it is. *)
Lemma iterate_keeps_key (key : string) (bound : Z) (post : list (string * Entry))
    (st : LoopState) :
  In (key, bound) (bounds g) ->
  (forall name e, In (name, e) post -> toLowerCase name = key -> invalid (value e)) ->
  fst (iterate g post st) !! key = fst st !! key.
Proof.
  intros Hin. revert st.
  induction post as [|[name e] rest IH]; intros st Hpost; [reflexivity|].
  rewrite iterate_cons, IH by (intros; eapply Hpost; [right|]; eauto).
  destruct (decide (toLowerCase name = key)) as [E|E].
  - destruct st as [m f]. rewrite (loop_body_bound key bound) by assumption.
    assert (Hnone : parsePositiveInt (value e) (Some bound) = None).
    { apply parsePositiveInt_None. apply (Hpost name); [now left | exact E]. }
    now rewrite Hnone.
  - now apply (loop_body_other_key key bound).
Qed.

(** Later [format] parameters whose value is not accepted leave
    [formatFromQuery] as it is. *)
Lemma iterate_keeps_format (post : list (string * Entry)) (st : LoopState) :
  (forall name e, In (name, e) post -> toLowerCase name = "format" ->
                  accepted_format g (value e) = false) ->
  snd (iterate g post st) = snd st.
Proof.
  revert st.
  induction post as [|[name e] rest IH]; intros st Hpost; [reflexivity|].
  rewrite iterate_cons, IH by (intros; eapply Hpost; [right|]; eauto).
  destruct (decide (toLowerCase name = "format")) as [E|E].
  - destruct st as [m f]. rewrite loop_body_format by exact E.
    now rewrite (Hpost name e) by (auto; now left).
  - now apply loop_body_not_format.
Qed.

Lemma iterate_truthy (todo : list (string * Entry)) (st : LoopState) :
  all_truthy (fst st) -> all_truthy (fst (iterate g todo st)).
Proof.
  revert st. induction todo as [|[name e] rest IH]; intros st Hst; [exact Hst|].
  rewrite iterate_cons. apply IH. now apply loop_body_truthy.
Qed.

Lemma iterate_explicit (todo : list (string * Entry)) (st : LoopState) :
  explicit g (snd st) -> explicit g (snd (iterate g todo st)).
Proof.
  revert st. induction todo as [|[name e] rest IH]; intros st Hst; [exact Hst|].
  rewrite iterate_cons. apply IH. now apply loop_body_explicit.
Qed.

End Body.

(* ===================================================================== *)
(** * The negotiator and the straight-line part of the handler *)
(* ===================================================================== *)

Section Negotiation.

Lemma negotiator_range (h : val) (f : string) :
  getBestFormatFromAcceptHeader h = Normal f -> f = "jpeg" \/ f = "webp".
Proof.
  unfold getBestFormatFromAcceptHeader.
  destruct (negb (String.eqb (typeof h) "object")); [intros [= <-]; now left|].
  intros H. apply bind_Normal in H as (a & _ & H).
  destruct (negb (truthy a)); [injection H as <-; now left|].
  apply bind_Normal in H as (v & _ & H).
  destruct (negb (truthy v)); [injection H as <-; now left|].
  apply bind_Normal in H as (b & _ & H).
  destruct b; injection H as <-; [now right | now left].
Qed.

Lemma negotiator_not_object (h : val) :
  typeof h <> "object" -> getBestFormatFromAcceptHeader h = Normal "jpeg".
Proof.
  intros Hty. unfold getBestFormatFromAcceptHeader.
  destruct (String.eqb_spec (typeof h) "object"); [contradiction | reflexivity].
Qed.

Lemma negotiator_shape (h : val) :
  h <> Null ->
  (truthy (acceptValue h) = true -> exists s, acceptValue h = Str s) ->
  getBestFormatFromAcceptHeader h
  = Normal (if accepts_webp h then "webp" else "jpeg").
Proof.
  intros Hnull Hstr. unfold accepts_webp.
  destruct h as [| |b|n|s|items|props]; try reflexivity; [congruence|].
  unfold getBestFormatFromAcceptHeader, acceptValue in *. simpl.
  destruct (own "accept" props) as [a|]; [|reflexivity]. simpl.
  destruct a as [| |b|n|s|items|entry]; simpl in *; try reflexivity.
  - now destruct b.
  - now destruct (n =? 0).
  - now destruct (String.eqb s "").
  - destruct (own "value" entry) as [v|]; [|reflexivity]. simpl in *.
    destruct (truthy v) eqn:Hv; simpl.
    + destruct (Hstr eq_refl) as [s Hs]. subst v. simpl.
      now case (includes "image/webp" s).
    + destruct v as [| |b|n|s|items|o]; simpl in *; try reflexivity;
        try discriminate.
      destruct s; [reflexivity | discriminate].
Qed.

Lemma finalFormat_explicit (f : string) (h : val) :
  f <> "" -> finalFormat (Some f) h = Normal f.
Proof.
  intros Hf. unfold finalFormat.
  now rewrite (proj2 (truthy_Str f) Hf).
Qed.

Lemma finalFormat_truthy (fq : option string) (h : val) (f : string) :
  finalFormat fq h = Normal f -> f <> "".
Proof.
  unfold finalFormat. intros H.
  assert (Hneg : getBestFormatFromAcceptHeader h = Normal f -> f <> "").
  { intros Hn. destruct (negotiator_range _ _ Hn) as [-> | ->]; discriminate. }
  destruct fq as [x|]; [|auto].
  destruct (truthy (Str x)) eqn:Hx; [|auto].
  injection H as <-. now apply truthy_Str.
Qed.

Lemma finalFormat_range (g : Globals) (fq : option string) (h : val) (f : string) :
  explicit g fq -> finalFormat fq h = Normal f ->
  (In f (SUPPORTED_FORMATS g) /\ f <> "auto") \/ f = "jpeg" \/ f = "webp".
Proof.
  unfold finalFormat. intros Hfq H.
  destruct fq as [x|]; [|right; eapply negotiator_range, H].
  destruct (truthy (Str x)); [|right; eapply negotiator_range, H].
  injection H as <-. left. now apply Hfq.
Qed.

Variable g : Globals.

Lemma operations_Normal (req : Request) (ops : gmap string string) :
  operations g req = Normal ops ->
  exists f,
    ~ shadowed (parameters req)
    /\ finalFormat (snd (iterate g (parameters req) (∅, None))) (headers req) = Normal f
    /\ ops = <["format" := f]> (fst (iterate g (parameters req) (∅, None))).
Proof.
  unfold operations. intros H.
  apply bind_Normal in H as ([m fq] & Hn & H).
  apply bind_Normal in H as (f & Hf & H).
  apply normalize_Normal in Hn as [Hno Hst].
  exists f. rewrite <- Hst. simpl. split; [exact Hno|]. split; [exact Hf|].
  now injection H as <-.
Qed.

Lemma operations_unshadowed (req : Request) :
  ~ shadowed (parameters req) ->
  operations g req
  = (f ← finalFormat (snd (iterate g (parameters req) (∅, None))) (headers req);
     Normal (<["format" := f]> (fst (iterate g (parameters req) (∅, None))))).
Proof.
  intros Hno. unfold operations. rewrite normalize_unshadowed by exact Hno.
  simpl. now destruct (iterate g (parameters req) (∅, None)).
Qed.

Lemma operations_lookup_key (req : Request) (ops : gmap string string)
    (key : string) (bound : Z) :
  In (key, bound) (bounds g) ->
  operations g req = Normal ops ->
  ops !! key = fst (iterate g (parameters req) (∅, None)) !! key.
Proof.
  intros Hin H. apply operations_Normal in H as (f & _ & _ & ->).
  apply lookup_insert_ne.
  destruct Hin as [[= <- _]|[[= <- _]|[[= <- _]|[]]]]; discriminate.
Qed.

Lemma handler_in_Normal (e : Event) (r : Request) :
  handler_in g e = Normal r ->
  exists ops,
    operations g (request e) = Normal ops
    /\ r = {| uri := uri (request e) ++ "/"
                     ++ encodeURIComponent (join "," (normalizedOperationsArray ops));
              querystring := Some [];
              headers := headers (request e) |}.
Proof.
  unfold handler_in. intros H. apply bind_Normal in H as (ops & Hops & H).
  exists ops. split; [exact Hops | now injection H as <-].
Qed.

End Negotiation.

(* ===================================================================== *)
(** * The integer parser *)
(* ===================================================================== *)

Section Parser.

Lemma digit_not_white (c : ascii) (r : string) :
  is_digit c = true -> strip_white (String c r) = String c r.
Proof.
  intros Hc.
  destruct c as [[] [] [] [] [] [] [] []]; try discriminate Hc;
    destruct r as [|b [|d r]]; reflexivity.
Qed.

Lemma digit_not_sign (c : ascii) (r : string) :
  is_digit c = true -> strip_sign (String c r) = (1, String c r).
Proof.
  intros Hc.
  destruct c as [[] [] [] [] [] [] [] []]; try discriminate Hc; reflexivity.
Qed.

Lemma parseInt_digit_start (c : ascii) (r : string) :
  is_digit c = true ->
  parseInt (String c r) = Some (digits_value 0 (String c r)).
Proof.
  intros Hc. unfold parseInt.
  rewrite digit_not_white, digit_not_sign by exact Hc.
  unfold starts_with_digit. rewrite Hc. now rewrite Z.mul_1_l.
Qed.

Lemma digits_value_app (digits rest : string) (acc : Z) :
  all_digits digits = true ->
  starts_with_digit rest = false ->
  digits_value acc (digits ++ rest) = digits_value acc digits.
Proof.
  intros Hd Hrest. revert acc Hd.
  induction digits as [|c ds IH]; intros acc Hd; simpl.
  - destruct rest as [|c r]; [reflexivity|]. simpl in *. now rewrite Hrest.
  - unfold all_digits in Hd. simpl in Hd. apply andb_true_iff in Hd as [Hc Hds].
    rewrite Hc. now apply IH.
Qed.

Lemma parseInt_trailing (digits rest : string) :
  digits <> "" ->
  all_digits digits = true ->
  starts_with_digit rest = false ->
  parseInt (digits ++ rest) = Some (digits_value 0 digits).
Proof.
  intros Hne Hd Hrest. destruct digits as [|c ds]; [congruence|].
  assert (Hc : is_digit c = true).
  { unfold all_digits in Hd. simpl in Hd. now apply andb_true_iff in Hd as [Hc _]. }
  change (String c ds ++ rest) with (String c (ds ++ rest)).
  rewrite parseInt_digit_start by exact Hc.
  change (String c (ds ++ rest)) with (String c ds ++ rest).
  now rewrite digits_value_app.
Qed.

Lemma parseInt_all_digits (digits : string) :
  digits <> "" -> all_digits digits = true ->
  parseInt digits = Some (digits_value 0 digits).
Proof.
  intros Hne Hd. destruct digits as [|c ds]; [congruence|].
  apply parseInt_digit_start.
  unfold all_digits in Hd. simpl in Hd. now apply andb_true_iff in Hd as [Hc _].
Qed.

Lemma parseInt_leading (c : ascii) (r : string) :
  strip_white (String c r) = String c r ->
  c <> "+"%char -> c <> "-"%char -> is_digit c = false ->
  parseInt (String c r) = None.
Proof.
  intros Hw Hplus Hminus Hc. unfold parseInt. rewrite Hw. unfold strip_sign.
  destruct (Ascii.eqb_spec c "-"); [contradiction|].
  destruct (Ascii.eqb_spec c "+"); [contradiction|].
  unfold starts_with_digit. now rewrite Hc.
Qed.

End Parser.

(** C8, as amended.  Garbage is ignored after the digits, not before them.
    A non-empty run of digits of value [n], with [1 <= n <= 2^53], followed
    by anything that does not start with a digit, is accepted: the parser
    returns [n] when no bound is supplied and the smaller of [n] and the
    bound when one is, so ['12abc'] gives 12; a run of value 0 gives null;
    a string whose first character is neither white space, a sign nor a
    digit, such as ['abc12'], gives null; and with no bound a parsed value
    in that range is returned as it is. *)
Theorem C8_trailing_garbage_ignored :
  (forall digits rest n,
      digits <> "" -> all_digits digits = true -> starts_with_digit rest = false ->
      digits_value 0 digits = n ->
      (1 <= n <= 2 ^ 53 ->
       parsePositiveInt (digits ++ rest) None = Some n
       /\ forall m, parsePositiveInt (digits ++ rest) (Some m) = Some (Z.min n m))
      /\ (n = 0 -> forall max, parsePositiveInt (digits ++ rest) max = None))
  /\ parsePositiveInt "12abc" None = Some 12
  /\ (forall c rest max,
        strip_white (String c rest) = String c rest ->
        c <> "+"%char -> c <> "-"%char -> is_digit c = false ->
        parsePositiveInt (String c rest) max = None)
  /\ (forall v n,
        parseInt v = Some n -> 1 <= n <= 2 ^ 53 ->
        parsePositiveInt v None = Some n).
Proof.
  split; [|split; [reflexivity|split]].
  - intros digits rest n Hne Hd Hrest Hn.
    assert (Hp : parseInt (digits ++ rest) = Some n)
      by (rewrite parseInt_trailing by assumption; now rewrite Hn).
    unfold parsePositiveInt. rewrite Hp. split.
    + intros [Hlo _]. destruct (Z.leb_spec n 0); [lia|]. now split.
    + intros ->. intros max. reflexivity.
  - intros c rest max Hw Hplus Hminus Hc. unfold parsePositiveInt.
    now rewrite parseInt_leading.
  - intros v n Hp [Hn _]. unfold parsePositiveInt. rewrite Hp.
    destruct (Z.leb_spec n 0); [lia | reflexivity].
Qed.

(** ['4000px'] gives 4000 without a bound and 100 with the bound 100,
    ['000px'] and ['px4000'] give null. *)
Lemma C8_witness :
  (parsePositiveInt "4000px" None = Some 4000
   /\ parsePositiveInt "4000px" (Some 100) = Some (Z.min 4000 100))
  /\ parsePositiveInt "000px" (Some 100) = None
  /\ parsePositiveInt "px4000" (Some 100) = None
  /\ parsePositiveInt " +7" None = Some 7.
Proof.
  destruct C8_trailing_garbage_ignored as (Htrail & _ & Hlead & Hpass).
  assert (Hrange : forall n, 1 <= n <= 4000 -> 1 <= n <= 2 ^ 53)
    by (intros n Hn; change (2 ^ 53) with 9007199254740992; lia).
  split; [|split; [|split]].
  - destruct (proj1 (Htrail "4000" "px" 4000 ltac:(discriminate)
                       eq_refl eq_refl eq_refl) (Hrange 4000 ltac:(lia)))
      as [Hnone Hsome].
    split; [exact Hnone | exact (Hsome 100)].
  - exact (proj2 (Htrail "000" "px" 0 ltac:(discriminate)
                    eq_refl eq_refl eq_refl) eq_refl (Some 100)).
  - apply Hlead; [reflexivity | discriminate | discriminate | reflexivity].
  - apply Hpass; [reflexivity | apply Hrange; lia].
Defined.

(** C8, as stated, fails: ['abc12'] starts with garbage and is rejected,
    with or without a bound. *)
Lemma C8_counterexample :
  parseInt "abc12" = None
  /\ parsePositiveInt "abc12" None = None
  /\ parsePositiveInt "abc12" (Some 4000) = None.
Proof. repeat split. Qed.

(* ===================================================================== *)
(** * Integer parameters *)
(* ===================================================================== *)

(** C1, as amended.  For width and height (bound 4000) and quality (bound
    100), whenever the handler produces its operations mapping: a parameter
    of that name (in any letter case) whose value parses to [n] with
    [1 <= n <= bound] appears in the mapping as [n], and as the bound when
    [n > bound], provided every parameter of the same name enumerated after
    it is invalid (the last valid one decides); and the key is absent when
    every parameter of that name is non-numeric or parses to [n <= 0]. *)
Theorem C1_last_valid_parameter_decides
    (req : Request) (ops : gmap string string) (key : string) (bound : Z) :
  In (key, bound) [("width", 4000); ("height", 4000); ("quality", 100)] ->
  operations module_load req = Normal ops ->
  (forall pre name e post n,
      parameters req = (pre ++ (name, e) :: post)%list ->
      toLowerCase name = key ->
      parseInt (value e) = Some n ->
      (forall name' e', In (name', e') post -> toLowerCase name' = key ->
                        invalid (value e')) ->
      (1 <= n <= bound -> ops !! key = Some (toString n))
      /\ (bound < n -> ops !! key = Some (toString bound)))
  /\ ((forall name e, In (name, e) (parameters req) -> toLowerCase name = key ->
                      invalid (value e)) ->
      ops !! key = None).
Proof.
  intros Hin Hops.
  change (In (key, bound) (bounds module_load)) in Hin.
  rewrite (operations_lookup_key module_load req ops key bound Hin Hops).
  assert (Hb : 1 <= bound).
  { destruct Hin as [[= _ <-]|[[= _ <-]|[[= _ <-]|[]]]]; simpl; lia. }
  split.
  - intros pre name e post n Hq Hname Hparse Hpost.
    rewrite Hq, iterate_app, iterate_cons.
    rewrite (iterate_keeps_key module_load key bound) by assumption.
    destruct (iterate module_load pre (∅, None)) as [m f].
    rewrite (loop_body_bound module_load key bound) by assumption. simpl.
    split; intros Hn.
    + rewrite (parsePositiveInt_Some _ n) by (assumption || lia).
      rewrite Z.min_l by lia. rewrite assign_if_Some by lia.
      apply lookup_insert_eq.
    + rewrite (parsePositiveInt_Some _ n) by (assumption || lia).
      rewrite Z.min_r by lia. rewrite assign_if_Some by lia.
      apply lookup_insert_eq.
  - intros Hall.
    rewrite (iterate_keeps_key module_load key bound) by assumption.
    apply lookup_empty.
Qed.

(** At [?width=300&height=9999&quality=0&format=png] the height is clamped
    and the quality is absent. *)
Lemma C1_witness :
  exists ops,
    operations module_load (request (cat Undefined)) = Normal ops
    /\ ops !! "height" = Some "4000"
    /\ ops !! "quality" = None.
Proof.
  eexists. split; [reflexivity|]. split.
  - refine (proj2 (proj1 (C1_last_valid_parameter_decides
      (request (cat Undefined)) _ "height" 4000 _ eq_refl)
      [("width", {| value := "300" |})] "height" {| value := "9999" |}
      [("quality", {| value := "0" |}); ("format", {| value := "png" |})]
      9999 eq_refl eq_refl eq_refl _) _).
    + right; left; reflexivity.
    + intros name' e' [[= <- <-]|[[= <- <-]|[]]]; discriminate.
    + lia.
  - refine (proj2 (C1_last_valid_parameter_decides
      (request (cat Undefined)) _ "quality" 100 _ eq_refl) _).
    + right; right; left; reflexivity.
    + intros name e [[= <- <-]|[[= <- <-]|[[= <- <-]|[[= <- <-]|[]]]]];
        try discriminate.
      intros _ n Hn. vm_compute in Hn. injection Hn as <-. lia.
Defined.

(** C1, as stated, fails when two parameters have the same name up to case:
    at [?width=100&WIDTH=200] the parameter [width=100] is valid and the
    mapping holds 200; at [?Width=5&width=abc] the parameter [width=abc] is
    not numeric and the key is present. *)
Lemma C1_counterexample :
  (In ("width", {| value := "100" |}) (parameters two_widths)
   /\ parseInt "100" = Some 100
   /\ operations module_load two_widths
      = Normal (<["format" := "webp"]> (<["width" := "200"]> ∅)))
  /\ (In ("width", {| value := "abc" |}) (parameters width_then_garbage)
      /\ parseInt "abc" = None
      /\ operations module_load width_then_garbage
         = Normal (<["format" := "webp"]> (<["width" := "5"]> ∅))).
Proof.
  repeat split; try reflexivity; simpl; auto.
Qed.

(* ===================================================================== *)
(** * The rewritten request *)
(* ===================================================================== *)

Section Output.

Lemma operations_truthy (g : Globals) (req : Request) (ops : gmap string string) :
  operations g req = Normal ops -> all_truthy ops.
Proof.
  intros H. apply operations_Normal in H as (f & _ & Hf & ->).
  intros k v. rewrite lookup_insert. case_decide.
  - intros [= <-]. eapply finalFormat_truthy, Hf.
  - apply iterate_truthy. intros k' v'. simpl. now rewrite lookup_empty.
Qed.

Lemma operations_format (g : Globals) (req : Request) (ops : gmap string string) :
  operations g req = Normal ops ->
  exists f,
    finalFormat (snd (iterate g (parameters req) (∅, None))) (headers req) = Normal f
    /\ ops !! "format" = Some f.
Proof.
  intros H. apply operations_Normal in H as (f & _ & Hf & ->).
  exists f. split; [exact Hf | apply lookup_insert_eq].
Qed.

Lemma push_if_spec (ops : gmap string string) (key : string) :
  all_truthy ops ->
  encodeURIComponent key = key ->
  push_if ops key = spec_pair ops key.
Proof.
  intros Hops Hkey. unfold push_if, spec_pair. rewrite Hkey.
  destruct (ops !! key) as [v|] eqn:Hv; [|reflexivity].
  now rewrite (proj2 (truthy_Str v) (Hops key v Hv)).
Qed.

Lemma array_spec (ops : gmap string string) :
  all_truthy ops ->
  normalizedOperationsArray ops
  = flat_map (spec_pair ops) ["format"; "quality"; "width"; "height"].
Proof.
  intros Hops. unfold normalizedOperationsArray. simpl.
  rewrite !push_if_spec by (assumption || reflexivity).
  now rewrite app_nil_r.
Qed.

Lemma handler_shadowed (e : Event) :
  shadowed (parameters (request e)) -> handler e = Throw TypeError.
Proof.
  intros Hsh. unfold handler, handler_in, operations.
  now rewrite normalize_shadowed.
Qed.

(** The handler returns exactly when no parameter is named
    [hasOwnProperty] and the format can be resolved. *)
Lemma handler_returns (e : Event) :
  returns (handler e)
  <-> ~ shadowed (parameters (request e))
      /\ returns (finalFormat
                    (snd (iterate module_load (parameters (request e)) (∅, None)))
                    (headers (request e))).
Proof.
  split.
  - intros [r Hr]. apply handler_in_Normal in Hr as (ops & Hops & _).
    apply operations_Normal in Hops as (f & Hno & Hf & _).
    split; [exact Hno | now exists f].
  - intros [Hno [f Hf]]. unfold handler, handler_in.
    rewrite operations_unshadowed by exact Hno. rewrite Hf. simpl.
    eexists. reflexivity.
Qed.

(** In particular it returns whenever no parameter is named
    [hasOwnProperty] and the headers are not [null] and carry a string, or
    nothing truthy, as Accept value. *)
Lemma handler_returns_well_shaped (e : Event) :
  ~ shadowed (parameters (request e)) ->
  headers (request e) <> Null ->
  (truthy (acceptValue (headers (request e))) = true ->
   exists s, acceptValue (headers (request e)) = Str s) ->
  returns (handler e).
Proof.
  intros Hno Hnull Hstr. apply handler_returns. split; [exact Hno|].
  assert (Hneg : returns (getBestFormatFromAcceptHeader (headers (request e)))).
  { rewrite negotiator_shape by assumption. eexists. reflexivity. }
  unfold finalFormat.
  destruct (snd (iterate module_load (parameters (request e)) (∅, None))) as [f|];
    [|exact Hneg].
  destruct (truthy (Str f)); [eexists; reflexivity | exact Hneg].
Qed.

End Output.

(** C2.  Whenever the handler returns, the segment appended to the path is
    the one the specification describes: the pairs [key=value] in the order
    format, quality, width, height, absent keys omitted, key and value each
    percent-encoded, joined by commas, the whole percent-encoded again; and
    format is present. *)
Theorem C2_segment (e : Event) (r : Request) :
  handler e = Normal r ->
  exists ops,
    operations module_load (request e) = Normal ops
    /\ is_Some (ops !! "format")
    /\ uri r = uri (request e) ++ "/" ++ spec_segment ops.
Proof.
  intros H. apply handler_in_Normal in H as (ops & Hops & ->).
  exists ops. split; [exact Hops|]. split.
  - destruct (operations_format _ _ _ Hops) as (f & _ & Hf). now exists f.
  - simpl. unfold spec_segment.
    now rewrite (array_spec ops (operations_truthy _ _ _ Hops)).
Qed.

(** At the example of the specification the segment is built from format,
    width and height. *)
Lemma C2_witness :
  exists ops,
    operations module_load (request (cat Undefined)) = Normal ops
    /\ is_Some (ops !! "format")
    /\ uri (cat_rewritten Undefined)
       = uri (request (cat Undefined)) ++ "/" ++ spec_segment ops.
Proof.
  apply (C2_segment (cat Undefined) (cat_rewritten Undefined)).
  vm_compute. reflexivity.
Defined.

(** C3.  Whenever the handler returns, the path is the original path, a
    slash and the percent-encoded operations token, the query string is
    empty whatever it was, and the headers are those of the input. *)
Theorem C3_output_request (e : Event) (r : Request) :
  handler e = Normal r ->
  exists ops,
    operations module_load (request e) = Normal ops
    /\ uri r = uri (request e) ++ "/"
               ++ encodeURIComponent (join "," (normalizedOperationsArray ops))
    /\ querystring r = Some []
    /\ headers r = headers (request e).
Proof.
  intros H. apply handler_in_Normal in H as (ops & Hops & ->).
  exists ops. repeat split. exact Hops.
Qed.

Lemma C3_witness :
  exists ops,
    operations module_load (request (cat (accept "image/webp"))) = Normal ops
    /\ uri (cat_rewritten (accept "image/webp"))
       = uri (request (cat (accept "image/webp"))) ++ "/"
         ++ encodeURIComponent (join "," (normalizedOperationsArray ops))
    /\ querystring (cat_rewritten (accept "image/webp")) = Some []
    /\ headers (cat_rewritten (accept "image/webp"))
       = headers (request (cat (accept "image/webp"))).
Proof.
  apply (C3_output_request (cat (accept "image/webp"))
           (cat_rewritten (accept "image/webp"))).
  vm_compute. reflexivity.
Defined.

(** C9.  For the path [/img/cat.png] and the query
    [width=300&height=9999&quality=0&format=png], whatever the headers, the
    rewritten path is [/img/cat.png/] followed by the percent-encoding of
    [format=png,width=300,height=4000]. *)
Theorem C9_cat_example (h : val) :
  handler (cat h) = Normal (cat_rewritten h)
  /\ uri (cat_rewritten h)
     = "/img/cat.png/" ++ encodeURIComponent "format=png,width=300,height=4000"
  /\ uri (cat_rewritten h)
     = "/img/cat.png/format%3Dpng%2Cwidth%3D300%2Cheight%3D4000".
Proof. split; [|split]; vm_compute; reflexivity. Qed.

(** C7 fails on the code.  A request with a query parameter named
    [hasOwnProperty] makes the loop call the parameter's entry instead of
    the method, and the handler throws. *)
Theorem C7_hasOwnProperty_parameter_throws :
  handler named_hasOwnProperty = Throw TypeError.
Proof. vm_compute. reflexivity. Qed.

(* ===================================================================== *)
(** * The format *)
(* ===================================================================== *)

Section Format.

Variable g : Globals.

(** The last [format] parameter with an accepted value decides
    [formatFromQuery]. *)
Lemma last_accepted_format (pre post : list (string * Entry)) (name : string)
    (e : Entry) (st : LoopState) :
  toLowerCase name = "format" ->
  accepted_format g (value e) = true ->
  (forall name' e', In (name', e') post -> toLowerCase name' = "format" ->
                    accepted_format g (value e') = false) ->
  snd (iterate g (pre ++ (name, e) :: post) st)
  = if String.eqb (toLowerCase (value e)) "auto" then None
    else Some (toLowerCase (value e)).
Proof.
  intros Hname Hacc Hpost.
  rewrite iterate_app, iterate_cons, iterate_keeps_format by exact Hpost.
  destruct (iterate g pre st) as [m f].
  rewrite loop_body_format by exact Hname. rewrite Hacc. simpl.
  now destruct (String.eqb (toLowerCase (value e)) "auto").
Qed.

End Format.

Lemma accepted_supported (v f : string) :
  toLowerCase v = f ->
  In f (SUPPORTED_FORMATS module_load) ->
  accepted_format module_load v = true.
Proof.
  intros Hv Hin. unfold accepted_format. rewrite Hv.
  apply andb_true_iff. split.
  - apply truthy_Str. intros ->. subst f.
    simpl in Hin. intuition discriminate.
  - apply existsb_exists. exists f. split; [exact Hin | apply String.eqb_refl].
Qed.

(** C4, as amended.  When a [format] parameter (name in any letter case)
    has the value webp (in any letter case) and no [format] parameter
    enumerated after it has an accepted value, the resolved format is webp,
    and it stays webp, without the handler failing, whatever the headers
    are replaced with. *)
Theorem C4_last_format_webp_wins
    (req : Request) (ops : gmap string string)
    (pre post : list (string * Entry)) (name : string) (e : Entry) :
  parameters req = (pre ++ (name, e) :: post)%list ->
  toLowerCase name = "format" ->
  toLowerCase (value e) = "webp" ->
  (forall name' e', In (name', e') post -> toLowerCase name' = "format" ->
                    accepted_format module_load (value e') = false) ->
  operations module_load req = Normal ops ->
  ops !! "format" = Some "webp"
  /\ forall h, exists ops',
       operations module_load (with_headers req h) = Normal ops'
       /\ ops' !! "format" = Some "webp".
Proof.
  intros Hq Hname Hv Hpost Hops.
  assert (Hacc : accepted_format module_load (value e) = true).
  { apply (accepted_supported _ "webp"); [exact Hv | simpl; tauto]. }
  assert (Hfq : snd (iterate module_load (parameters req) (∅, None)) = Some "webp").
  { rewrite Hq, last_accepted_format by assumption. now rewrite Hv. }
  split.
  - destruct (operations_format _ _ _ Hops) as (f & Hf & ->).
    rewrite Hfq, finalFormat_explicit in Hf by discriminate. congruence.
  - intros h. apply operations_Normal in Hops as (_ & Hno & _ & _).
    assert (Hp : parameters (with_headers req h) = parameters req) by reflexivity.
    rewrite operations_unshadowed by (now rewrite Hp).
    rewrite Hp, Hfq, finalFormat_explicit by discriminate. simpl.
    eexists. split; [reflexivity | apply lookup_insert_eq].
Qed.

(** [?Format=WebP] with headers accepting no image at all, and with any
    other headers, [null] included. *)
Lemma C4_witness :
  exists ops,
    operations module_load mixed_case_webp = Normal ops
    /\ ops !! "format" = Some "webp"
    /\ forall h, exists ops',
         operations module_load (with_headers mixed_case_webp h) = Normal ops'
         /\ ops' !! "format" = Some "webp".
Proof.
  exists (<["format" := "webp"]> ∅).
  split; [vm_compute; reflexivity|].
  apply (C4_last_format_webp_wins mixed_case_webp _ [] [] "Format"
           {| value := "WebP" |}).
  - reflexivity.
  - reflexivity.
  - reflexivity.
  - intros name' e' [].
  - vm_compute. reflexivity.
Defined.

(** C4, as stated, fails: at [?format=webp&FORMAT=png] the query string
    contains format=webp and the resolved format is png. *)
Lemma C4_counterexample :
  In ("format", {| value := "webp" |}) (parameters webp_then_png)
  /\ operations module_load webp_then_png
     = Normal (<["format" := "png"]> ∅)
  /\ handler {| request := webp_then_png |}
     = Normal {| uri := "/img/cat.png/format%3Dpng";
                 querystring := Some [];
                 headers := accept "image/webp" |}.
Proof.
  split; [now left|]. split; vm_compute; reflexivity.
Qed.

(** C5, as amended.  The format of the output is never auto: it is one of
    jpeg, webp, avif, png, svg and gif, and it is what the first pair of
    the segment carries.  A [format] parameter with the value auto (in any
    letter case) makes the handler negotiate the format from the headers
    when no [format] parameter enumerated after it has an accepted value. *)
Theorem C5_auto_defers_to_negotiation :
  (forall req ops,
      operations module_load req = Normal ops ->
      exists f,
        ops !! "format" = Some f
        /\ In f ["jpeg"; "webp"; "avif"; "png"; "svg"; "gif"]
        /\ f <> "auto"
        /\ head (normalizedOperationsArray ops)
           = Some ("format=" ++ encodeURIComponent f))
  /\ (forall req ops pre post name e,
        parameters req = (pre ++ (name, e) :: post)%list ->
        toLowerCase name = "format" ->
        toLowerCase (value e) = "auto" ->
        (forall name' e', In (name', e') post -> toLowerCase name' = "format" ->
                          accepted_format module_load (value e') = false) ->
        operations module_load req = Normal ops ->
        exists f,
          getBestFormatFromAcceptHeader (headers req) = Normal f
          /\ ops !! "format" = Some f).
Proof.
  split.
  - intros req ops Hops.
    destruct (operations_format _ _ _ Hops) as (f & Hf & Hlook).
    exists f. split; [exact Hlook|].
    assert (Hrange : In f ["jpeg"; "webp"; "avif"; "png"; "svg"; "gif"]).
    { apply (finalFormat_range module_load) in Hf.
      - destruct Hf as [[Hin Hauto] | [-> | ->]];
          [| now left | right; now left].
        destruct Hin as [<- | Hin]; [congruence | exact Hin].
      - apply iterate_explicit. intros f'. discriminate. }
    assert (Hne : forall x, ~ In x ["jpeg"; "webp"; "avif"; "png"; "svg"; "gif"]
                            -> f <> x) by (intros x Hx ->; contradiction).
    split; [exact Hrange|]. split.
    + apply Hne. simpl. intuition discriminate.
    + unfold normalizedOperationsArray, push_if. rewrite Hlook.
      rewrite (proj2 (truthy_Str f)); [reflexivity|].
      apply Hne. simpl. intuition discriminate.
  - intros req ops pre post name e Hq Hname Hv Hpost Hops.
    assert (Hacc : accepted_format module_load (value e) = true).
    { apply (accepted_supported _ "auto"); [exact Hv | simpl; tauto]. }
    destruct (operations_format _ _ _ Hops) as (f & Hf & Hlook).
    exists f. split; [|exact Hlook].
    rewrite Hq, last_accepted_format in Hf by assumption.
    now rewrite Hv in Hf.
Qed.

(** [?format=png&FORMAT=Auto] with an Accept header that lists webp: the
    format is negotiated. *)
Lemma C5_witness :
  exists ops f,
    operations module_load png_then_auto = Normal ops
    /\ getBestFormatFromAcceptHeader (headers png_then_auto) = Normal f
    /\ ops !! "format" = Some f.
Proof.
  exists (<["format" := "webp"]> ∅).
  assert (Hops : operations module_load png_then_auto
                 = Normal (<["format" := "webp"]> ∅))
    by (vm_compute; reflexivity).
  destruct (proj2 C5_auto_defers_to_negotiation png_then_auto _
              [("format", {| value := "png" |})] [] "FORMAT" {| value := "Auto" |}
              eq_refl eq_refl eq_refl
              (fun name' e' (H : In (name', e') []) => match H with end)
              Hops) as (f & Hf & Hlook).
  exists f. split; [exact Hops|]. split; [exact Hf | exact Hlook].
Defined.

(** C5, as stated, fails in its second half: at [?format=auto&Format=png]
    the query string contains format=auto, the negotiation would give webp,
    and the format is png. *)
Lemma C5_counterexample :
  In ("format", {| value := "auto" |}) (parameters auto_then_png)
  /\ getBestFormatFromAcceptHeader (headers auto_then_png) = Normal "webp"
  /\ operations module_load auto_then_png = Normal (<["format" := "png"]> ∅).
Proof.
  split; [now left|]. split; vm_compute; reflexivity.
Qed.

(* ===================================================================== *)
(** * The negotiator *)
(* ===================================================================== *)

(** C6 fails on the code.  The guard of the negotiator lets [null]
    through, since [typeof null] is ['object'], and reading its [accept]
    throws, where the comment on the guard and the claim promise jpeg for
    missing or malformed headers; headers that are [undefined] or not an
    object do give jpeg.  The handler fails with it when no parameter
    decides the format. *)
Theorem C6_null_headers_throw :
  typeof Null = "object"
  /\ getBestFormatFromAcceptHeader Null = Throw TypeError
  /\ getBestFormatFromAcceptHeader Undefined = Normal "jpeg"
  /\ getBestFormatFromAcceptHeader (Str "text/html") = Normal "jpeg"
  /\ handler {| request := {| uri := "/img/cat.png";
                              querystring := query [("width", "300")];
                              headers := Null |} |}
     = Throw TypeError.
Proof.
  split; [reflexivity|]. split; [reflexivity|]. split; [reflexivity|].
  split; [reflexivity|]. vm_compute. reflexivity.
Qed.

(* ===================================================================== *)
(** * More on the runtime: decimal round trip, percent-encoding *)
(* ===================================================================== *)

Section Decimal.

Lemma digits_value_acc (d : Decimal.uint) (acc : positive) :
  digits_value (Z.pos acc) (NilEmpty.string_of_uint d)
  = Z.pos (Pos.of_uint_acc d acc).
Proof.
  revert acc. induction d; intros acc; simpl; [reflexivity|..];
    match goal with
    | |- digits_value ?a _ = Z.pos (Pos.of_uint_acc _ ?p) =>
        replace a with (Z.pos p) by (unfold digit_value; simpl; lia)
    end; apply IHd.
Qed.

Lemma digits_value_uint (d : Decimal.uint) :
  digits_value 0 (NilEmpty.string_of_uint d) = Z.of_N (Pos.of_uint d).
Proof.
  induction d; simpl; [reflexivity|..];
    match goal with
    | |- digits_value ?a _ = _ =>
        let v := eval vm_compute in a in change a with v
    end; try exact IHd; apply digits_value_acc.
Qed.

Lemma string_of_pos_digit (p : positive) :
  exists c r, NilEmpty.string_of_uint (Pos.to_uint p) = String c r
              /\ is_digit c = true.
Proof.
  pose proof (DecimalPos.Unsigned.to_uint_nonnil p) as Hnil.
  destruct (Pos.to_uint p); [congruence|..]; simpl; eauto.
Qed.

Lemma parseInt_pos (p : positive) :
  parseInt (NilEmpty.string_of_uint (Pos.to_uint p)) = Some (Z.pos p).
Proof.
  destruct (string_of_pos_digit p) as (c & r & Hs & Hc).
  rewrite Hs, parseInt_digit_start by exact Hc. rewrite <- Hs.
  rewrite digits_value_uint, DecimalPos.Unsigned.of_to. reflexivity.
Qed.

Lemma toString_pos (p : positive) :
  toString (Z.pos p) = NilEmpty.string_of_uint (Pos.to_uint p).
Proof.
  unfold toString. simpl. unfold NilZero.string_of_uint.
  pose proof (DecimalPos.Unsigned.to_uint_nonnil p) as Hnil.
  destruct (Pos.to_uint p); [congruence|..]; reflexivity.
Qed.

Lemma minus_not_white (r : string) : strip_white (String "-" r) = String "-" r.
Proof. destruct r as [|b [|d r]]; reflexivity. Qed.

End Decimal.

Section Encoding.

Lemma encode_app (a b : string) :
  encodeURIComponent (a ++ b) = encodeURIComponent a ++ encodeURIComponent b.
Proof.
  induction a as [|c r IH]; [reflexivity|]. simpl.
  destruct (unreserved c); simpl; now rewrite IH.
Qed.

Lemma encode_unreserved (s : string) :
  forallb unreserved (chars s) = true -> encodeURIComponent s = s.
Proof.
  induction s as [|c r IH]; [reflexivity|]. unfold chars. simpl.
  intros H. apply andb_true_iff in H as [Hc Hr]. rewrite Hc.
  now rewrite IH.
Qed.

Lemma percent_chars (c : ascii) :
  forallb (fun x => unreserved x || Ascii.eqb x "%") (chars (percent c)) = true.
Proof.
  destruct c as [[] [] [] [] [] [] [] []]; vm_compute; reflexivity.
Qed.

Lemma chars_app (a b : string) : chars (a ++ b) = (chars a ++ chars b)%list.
Proof.
  induction a as [|c r IH]; [reflexivity|]. unfold chars in *. simpl.
  now rewrite IH.
Qed.

Lemma encode_chars (s : string) :
  forallb (fun x => unreserved x || Ascii.eqb x "%")
          (chars (encodeURIComponent s)) = true.
Proof.
  induction s as [|c r IH]; [reflexivity|]. simpl.
  destruct (unreserved c) eqn:Hc.
  - change (chars (String c ?x)) with (c :: chars x). simpl. now rewrite Hc.
  - rewrite chars_app, forallb_app, percent_chars. exact IH.
Qed.

Lemma digits_unreserved (d : Decimal.uint) :
  forallb unreserved (chars (NilEmpty.string_of_uint d)) = true.
Proof. induction d; simpl; [reflexivity|..]; exact IHd. Qed.

Lemma lower_char_idem (c : ascii) : lower_char (lower_char c) = lower_char c.
Proof. destruct c as [[] [] [] [] [] [] [] []]; reflexivity. Qed.

Lemma toLowerCase_idem (s : string) : toLowerCase (toLowerCase s) = toLowerCase s.
Proof.
  induction s as [|c r IH]; [reflexivity|]. simpl.
  now rewrite lower_char_idem, IH.
Qed.

Lemma toLowerCase_empty (s : string) : toLowerCase s = "" <-> s = "".
Proof. destruct s; simpl; split; congruence. Qed.

End Encoding.

Section ParserRange.

Lemma parsePositiveInt_range (v : string) (n : Z) :
  (forall m, parsePositiveInt v (Some m) = Some n ->
             n <= m /\ (1 <= m -> 1 <= n) /\ (m <= 0 -> n = m))
  /\ (parsePositiveInt v None = Some n -> 1 <= n).
Proof.
  unfold parsePositiveInt. destruct (parseInt v) as [p|].
  - destruct (Z.leb_spec p 0).
    + split; [intros m|]; discriminate.
    + split; [intros m|]; intros [= <-]; lia.
  - split; [intros m|]; discriminate.
Qed.

Lemma parse_toString (n : Z) (max : option Z) :
  1 <= n ->
  parseInt (toString n) = Some n
  /\ parsePositiveInt (toString n) max
     = Some (match max with Some m => Z.min n m | None => n end).
Proof.
  intros Hn. destruct n as [|p|p]; try lia.
  assert (Hp : parseInt (toString (Z.pos p)) = Some (Z.pos p))
    by (rewrite toString_pos; apply parseInt_pos).
  split; [exact Hp|]. unfold parsePositiveInt. rewrite Hp.
  destruct (Z.leb_spec (Z.pos p) 0); [lia | now destruct max].
Qed.

Lemma toString_unreserved (n : Z) :
  1 <= n -> forallb unreserved (chars (toString n)) = true.
Proof.
  intros Hn. destruct n as [|p|p]; try lia.
  rewrite toString_pos. apply digits_unreserved.
Qed.

End ParserRange.

(* ===================================================================== *)
(** * More on the loop *)
(* ===================================================================== *)

Section LoopSpec.

Variable g : Globals.

Lemma loop_body_ineffective (op : string) (e : Entry) (st : LoopState) :
  effective g (op, e) = false -> loop_body g op e st = st.
Proof.
  unfold effective, loop_body. simpl. destruct st as [m f].
  destruct (String.eqb (toLowerCase op) "format"); [now intros ->|].
  assert (Hn : forall v max, bool_decide (is_Some (parsePositiveInt v max)) = false ->
                             parsePositiveInt v max = None).
  { intros v max H. apply bool_decide_eq_false in H.
    destruct (parsePositiveInt v max); [exfalso; eauto | reflexivity]. }
  destruct (String.eqb (toLowerCase op) "width"); simpl;
    [intros H; now rewrite (Hn _ _ H)|].
  destruct (String.eqb (toLowerCase op) "height"); simpl;
    [intros H; now rewrite (Hn _ _ H)|].
  destruct (String.eqb (toLowerCase op) "quality"); simpl;
    [intros H; now rewrite (Hn _ _ H)|].
  reflexivity.
Qed.

Lemma iterate_filter (qs : list (string * Entry)) (st : LoopState) :
  iterate g (List.filter (effective g) qs) st = iterate g qs st.
Proof.
  revert st. induction qs as [|[k e] rest IH]; intros st; [reflexivity|].
  cbn [List.filter]. destruct (effective g (k, e)) eqn:He.
  - rewrite !iterate_cons. apply IH.
  - rewrite iterate_cons, loop_body_ineffective by exact He. apply IH.
Qed.

Lemma iterate_snoc (qs : list (string * Entry)) (k : string) (e : Entry)
    (st : LoopState) :
  iterate g (qs ++ [(k, e)]) st = loop_body g k e (iterate g qs st).
Proof. now rewrite iterate_app. Qed.

Lemma writes_other (key : string) (p : string * Entry) :
  toLowerCase (fst p) <> key -> writes g key p = false.
Proof.
  intros H. unfold writes.
  destruct (String.eqb_spec (toLowerCase (fst p)) key); [contradiction | reflexivity].
Qed.

Lemma writes_same (key : string) (p : string * Entry) :
  toLowerCase (fst p) = key -> writes g key p = effective g p.
Proof. intros H. unfold writes. now rewrite H, String.eqb_refl. Qed.

(** [formatFromQuery] after the loop. *)
Lemma iterate_format_spec (qs : list (string * Entry)) :
  snd (iterate g qs (∅, None)) = formatFromQuery_spec g qs.
Proof.
  unfold formatFromQuery_spec.
  induction qs as [|[k e] qs IH] using rev_ind; [reflexivity|].
  rewrite iterate_snoc, List.filter_app. simpl.
  destruct (decide (toLowerCase k = "format")) as [E|E].
  - rewrite (writes_same "format" (k, e)) by exact E.
    destruct (iterate g qs (∅, None)) as [m f]. simpl in IH.
    rewrite loop_body_format by exact E.
    unfold effective. simpl. rewrite E. simpl.
    destruct (accepted_format g (value e)); simpl.
    + now rewrite last_snoc.
    + now rewrite app_nil_r.
  - rewrite (writes_other "format" (k, e)) by exact E.
    rewrite app_nil_r, loop_body_not_format by exact E. exact IH.
Qed.

(** An integer key after the loop. *)
Lemma iterate_integer_spec (key : string) (bound : Z) (qs : list (string * Entry)) :
  In (key, bound) (bounds g) -> 1 <= bound ->
  fst (iterate g qs (∅, None)) !! key = integer_spec g key bound qs.
Proof.
  intros Hin Hb. unfold integer_spec.
  induction qs as [|[k e] qs IH] using rev_ind; [reflexivity|].
  rewrite iterate_snoc, List.filter_app. simpl.
  destruct (decide (toLowerCase k = key)) as [E|E].
  - rewrite (writes_same key (k, e)) by exact E.
    destruct (iterate g qs (∅, None)) as [m f]. simpl in IH.
    rewrite (loop_body_bound g key bound) by assumption. cbn [fst snd].
    assert (Heff : effective g (k, e)
                   = bool_decide (is_Some (parsePositiveInt (value e) (Some bound)))).
    { unfold effective. cbn [fst snd]. rewrite E.
      destruct Hin as [[= <- <-]|[[= <- <-]|[[= <- <-]|[]]]]; reflexivity. }
    rewrite Heff.
    destruct (parsePositiveInt (value e) (Some bound)) as [n|] eqn:Hp.
    + rewrite bool_decide_eq_true_2 by eauto. rewrite last_snoc.
      cbn [fst snd]. rewrite Hp.
      destruct (proj1 (parsePositiveInt_range (value e) n) bound Hp) as (_ & Hn & _).
      rewrite assign_if_Some by (specialize (Hn Hb); lia).
      apply lookup_insert_eq.
    + rewrite bool_decide_eq_false_2 by (intros [? ?]; discriminate).
      rewrite app_nil_r. exact IH.
  - rewrite (writes_other key (k, e)) by exact E.
    rewrite app_nil_r. rewrite (loop_body_other_key g key bound) by assumption.
    exact IH.
Qed.

Lemma iterate_keys (qs : list (string * Entry)) (st : LoopState) (k : string) :
  is_Some (fst (iterate g qs st) !! k) ->
  is_Some (fst st !! k) \/ In k ["quality"; "width"; "height"].
Proof.
  revert st. induction qs as [|[name e] rest IH]; intros st; [now left|].
  rewrite iterate_cons. intros H. apply IH in H as [H|H]; [|now right].
  destruct st as [m f]. unfold loop_body in H.
  assert (Ha : forall key n, is_Some (assign_if key n m !! k) ->
                             is_Some (m !! k) \/ k = key).
  { intros key n. unfold assign_if. destruct n as [n|]; [|now left].
    destruct (truthy (Num n)); [|now left].
    rewrite lookup_insert. case_decide; [now right | now left]. }
  repeat match type of H with
  | context [String.eqb (toLowerCase name) ?s] =>
      destruct (String.eqb (toLowerCase name) s)
  end; simpl in H; try (now left);
  try (apply Ha in H as [H | ->]; [now left | right; simpl; tauto]).
  destruct (accepted_format g (value e)); now left.
Qed.

End LoopSpec.

Section Reordering.

Variable g : Globals.

Lemma assign_if_comm (k1 k2 : string) (n1 n2 : option Z) (m : gmap string string) :
  k1 <> k2 ->
  assign_if k1 n1 (assign_if k2 n2 m) = assign_if k2 n2 (assign_if k1 n1 m).
Proof.
  intros Hne. unfold assign_if.
  destruct n1 as [n1|], n2 as [n2|]; try reflexivity.
  destruct (truthy (Num n1)), (truthy (Num n2)); try reflexivity.
  now apply insert_insert_ne.
Qed.

Lemma loop_body_comm (k1 k2 : string) (e1 e2 : Entry) (st : LoopState) :
  toLowerCase k1 <> toLowerCase k2 ->
  loop_body g k1 e1 (loop_body g k2 e2 st)
  = loop_body g k2 e2 (loop_body g k1 e1 st).
Proof.
  intros Hne. destruct st as [m f]. unfold loop_body.
  destruct (String.eqb_spec (toLowerCase k1) "format") as [E1|_];
  destruct (String.eqb_spec (toLowerCase k2) "format") as [E2|_];
    try congruence;
  [ destruct (accepted_format g (value e1));
    repeat match goal with
    | |- context [String.eqb (toLowerCase k2) ?s] =>
        destruct (String.eqb (toLowerCase k2) s)
    end; reflexivity
  | destruct (accepted_format g (value e2));
    repeat match goal with
    | |- context [String.eqb (toLowerCase k1) ?s] =>
        destruct (String.eqb (toLowerCase k1) s)
    end; reflexivity
  | ].
  destruct (String.eqb_spec (toLowerCase k1) "width") as [A1|_];
  destruct (String.eqb_spec (toLowerCase k2) "width") as [A2|_];
    try congruence;
  destruct (String.eqb_spec (toLowerCase k1) "height") as [B1|_];
  destruct (String.eqb_spec (toLowerCase k2) "height") as [B2|_];
    try congruence;
  destruct (String.eqb_spec (toLowerCase k1) "quality") as [C1|_];
  destruct (String.eqb_spec (toLowerCase k2) "quality") as [C2|_];
    try congruence; try reflexivity;
  f_equal; now apply assign_if_comm.
Qed.

Lemma iterate_Permutation (qs qs' : list (string * Entry)) (st : LoopState) :
  Permutation qs qs' ->
  NoDup (map (fun p => toLowerCase (fst p)) qs) ->
  iterate g qs st = iterate g qs' st.
Proof.
  intros Hperm. revert st.
  induction Hperm as [|[k e] l l' Hperm IH|[k1 e1] [k2 e2] l|l l' l'' H1 IH1 H2 IH2];
    intros st Hnd.
  - reflexivity.
  - rewrite !iterate_cons. apply IH. simpl in Hnd. now apply NoDup_cons in Hnd.
  - rewrite !iterate_cons. f_equal. apply loop_body_comm.
    simpl in Hnd. apply NoDup_cons in Hnd as [Hnin _].
    intros Heq. apply Hnin. rewrite Heq. now left.
  - rewrite IH1 by exact Hnd. apply IH2.
    assert (Hm : map (fun p : string * Entry => toLowerCase (fst p)) l
                 ≡ₚ map (fun p => toLowerCase (fst p)) l')
      by now apply Permutation_map.
    now rewrite <- Hm.
Qed.

Lemma shadowed_In (qs : list (string * Entry)) :
  shadowed qs <-> exists e, In ("hasOwnProperty", e) qs.
Proof.
  split.
  - intros [e He]. exists e. now apply own_Some_In.
  - intros [e He]. now apply (own_In _ e).
Qed.

Lemma accepted_format_lower (v : string) :
  accepted_format g (toLowerCase v) = accepted_format g v.
Proof.
  unfold accepted_format. rewrite toLowerCase_idem. f_equal.
  destruct v; reflexivity.
Qed.

Lemma loop_body_canonical (k : string) (e : Entry) (st : LoopState) :
  loop_body g (fst (canonical (k, e))) (snd (canonical (k, e))) st
  = loop_body g k e st.
Proof.
  unfold canonical, loop_body. cbn [fst snd]. destruct st as [m f].
  rewrite toLowerCase_idem.
  destruct (String.eqb (toLowerCase k) "format"); [|reflexivity].
  cbn [value]. now rewrite accepted_format_lower, toLowerCase_idem.
Qed.

Lemma iterate_canonical (qs : list (string * Entry)) (st : LoopState) :
  iterate g (map canonical qs) st = iterate g qs st.
Proof.
  revert st. induction qs as [|[k e] rest IH]; intros st; [reflexivity|].
  cbn [map]. destruct (canonical (k, e)) as [k' e'] eqn:Hc.
  rewrite !iterate_cons, IH. f_equal.
  change k' with (fst (k', e')). change e' with (snd (k', e')) at 2.
  rewrite <- Hc. apply loop_body_canonical.
Qed.

Lemma canonical_unshadowed (qs : list (string * Entry)) :
  ~ shadowed (map canonical qs).
Proof.
  intros Hsh. apply shadowed_In in Hsh as [e He].
  apply in_map_iff in He as ([k' e'] & Hc & _).
  unfold canonical in Hc. cbn [fst snd] in Hc.
  assert (Hk : toLowerCase k' = "hasOwnProperty") by congruence.
  apply (f_equal toLowerCase) in Hk. rewrite toLowerCase_idem in Hk.
  rewrite Hk in Hc. discriminate.
Qed.

Lemma effective_unshadowed (qs : list (string * Entry)) :
  ~ shadowed (List.filter (effective g) qs).
Proof.
  intros Hsh. apply shadowed_In in Hsh as [e He].
  apply filter_In in He as [_ He]. discriminate.
Qed.

(** Two query strings on which the loop ends in the same state give the
    same result. *)
Lemma handler_in_query (req : Request) (qs qs' : list (string * Entry)) :
  querystring req = Some qs ->
  ~ shadowed qs -> ~ shadowed qs' ->
  iterate g qs (∅, None) = iterate g qs' (∅, None) ->
  handler_in g {| request := req |}
  = handler_in g {| request := with_query req qs' |}.
Proof.
  intros Hq Hno Hno' Heq. unfold handler_in. cbn [request].
  rewrite !operations_unshadowed
    by (unfold parameters; cbn [with_query querystring]; now rewrite ?Hq).
  unfold parameters. cbn [with_query querystring uri headers default]. rewrite Hq.
  cbv [default from_option id]. now rewrite Heq.
Qed.

End Reordering.

(* ===================================================================== *)
(** * Properties of parsePositiveInt *)
(* ===================================================================== *)

(** X1.  The result of [parsePositiveInt] with a bound never exceeds the
    bound, and is at least 1 when the bound is; the positivity test comes
    before the clamp, so with a bound [m <= 0] an accepted value comes back
    as [m] itself.  Without a bound the result is at least 1. *)
Theorem X1_parsePositiveInt_range (v : string) (n : Z) :
  (forall m, parsePositiveInt v (Some m) = Some n ->
             n <= m /\ (1 <= m -> 1 <= n) /\ (m <= 0 -> n = m))
  /\ (parsePositiveInt v None = Some n -> 1 <= n).
Proof. apply parsePositiveInt_range. Qed.

Lemma X1_witness :
  (4000 <= 4000 /\ (1 <= 4000 -> 1 <= 4000) /\ (4000 <= 0 -> 4000 = 4000))
  /\ 1 <= 7.
Proof.
  split.
  - exact (proj1 (X1_parsePositiveInt_range "9999px" 4000) 4000 eq_refl).
  - exact (proj2 (X1_parsePositiveInt_range " +7" 7) eq_refl).
Defined.

(** X2.  [parsePositiveInt] reads back what the handler writes with
    [toString]: for an integer [n] with [1 <= n <= 2^53], where the number
    is an exact double and is written with all its digits, the decimal
    string of [n] parses to [n] without a bound, and to the smaller of [n]
    and the bound with one. *)
Theorem X2_parse_toString (n : Z) (max : option Z) :
  1 <= n <= 2 ^ 53 ->
  parseInt (toString n) = Some n
  /\ parsePositiveInt (toString n) max
     = Some (match max with Some m => Z.min n m | None => n end).
Proof. intros [Hn _]. now apply parse_toString. Qed.

Lemma X2_witness :
  parseInt (toString 4000) = Some 4000
  /\ parsePositiveInt (toString 4000) (Some 100) = Some (Z.min 4000 100).
Proof.
  apply (X2_parse_toString 4000 (Some 100)).
  change (2 ^ 53) with 9007199254740992. lia.
Defined.

(* ===================================================================== *)
(** * Properties of the operations mapping *)
(* ===================================================================== *)

Section Mapping.

Lemma operations_keys (req : Request) (ops : gmap string string) (k : string) :
  operations module_load req = Normal ops ->
  is_Some (ops !! k) -> In k ["format"; "quality"; "width"; "height"].
Proof.
  intros Hops. apply operations_Normal in Hops as (f & _ & _ & ->).
  rewrite lookup_insert. case_decide as Hk; [intros _; now left|].
  intros H. apply iterate_keys in H as [H|H]; [|now right].
  simpl in H. rewrite lookup_empty in H. now destruct H.
Qed.

Lemma integers_bounded
    (req : Request) (ops : gmap string string) (key s : string) (bound : Z) :
  In (key, bound) (bounds module_load) ->
  operations module_load req = Normal ops ->
  ops !! key = Some s ->
  exists n, 1 <= n <= bound /\ s = toString n.
Proof.
  intros Hin Hops Hs.
  assert (Hb : 1 <= bound).
  { destruct Hin as [[= _ <-]|[[= _ <-]|[[= _ <-]|[]]]]; simpl; lia. }
  rewrite (operations_lookup_key module_load req ops key bound Hin Hops) in Hs.
  rewrite (iterate_integer_spec module_load key bound) in Hs by assumption.
  unfold integer_spec in Hs.
  destruct (last _) as [p|]; [|discriminate].
  destruct (parsePositiveInt (value (snd p)) (Some bound)) as [n|] eqn:Hp;
    [|discriminate].
  injection Hs as <-. exists n. split; [|reflexivity].
  destruct (proj1 (parsePositiveInt_range _ n) bound Hp) as (Hle & Hge & _).
  split; [now apply Hge | exact Hle].
Qed.

End Mapping.

(** X3.  The operations mapping never holds a key other than format,
    quality, width and height, whatever the names of the query
    parameters, and the array built from it has between one and four
    pairs. *)
Theorem X3_operations_keys (req : Request) (ops : gmap string string) :
  operations module_load req = Normal ops ->
  (forall k, is_Some (ops !! k) -> In k ["format"; "quality"; "width"; "height"])
  /\ (1 <= length (normalizedOperationsArray ops) <= 4)%nat.
Proof.
  intros Hops. split.
  - intros k. exact (operations_keys req ops k Hops).
  - destruct (operations_format _ _ _ Hops) as (f & Hf & Hlook).
    apply finalFormat_truthy in Hf.
    assert (Hle : forall key, (length (push_if ops key) <= 1)%nat).
    { intros key. unfold push_if. destruct (ops !! key) as [v|]; [|simpl; lia].
      destruct (truthy (Str v)); simpl; lia. }
    unfold normalizedOperationsArray. rewrite !length_app.
    pose proof (Hle "quality"). pose proof (Hle "width"). pose proof (Hle "height").
    assert (length (push_if ops "format") = 1%nat).
    { unfold push_if. rewrite Hlook. now rewrite (proj2 (truthy_Str f) Hf). }
    lia.
Qed.

Lemma X3_witness :
  (forall k, is_Some ((<["format" := "webp"]> (∅ : gmap string string)) !! k) ->
             In k ["format"; "quality"; "width"; "height"])
  /\ (1 <= length (normalizedOperationsArray (<["format" := "webp"]> ∅)) <= 4)%nat.
Proof.
  apply (X3_operations_keys
           {| uri := "/a.jpg";
              querystring := query [("utm_source", "mail"); ("Width", "0")];
              headers := accept "image/webp" |}).
  vm_compute. reflexivity.
Defined.

(** X4.  Whatever the query string, a width or height in the operations
    mapping is the decimal form of an integer between 1 and 4000, and a
    quality that of an integer between 1 and 100. *)
Theorem X4_integers_bounded
    (req : Request) (ops : gmap string string) (key s : string) (bound : Z) :
  In (key, bound) [("width", 4000); ("height", 4000); ("quality", 100)] ->
  operations module_load req = Normal ops ->
  ops !! key = Some s ->
  exists n, 1 <= n <= bound /\ s = toString n.
Proof.
  intros Hin Hops Hs. exact (integers_bounded req ops key s bound Hin Hops Hs).
Qed.

Lemma X4_witness : exists n, 1 <= n <= 100 /\ "100" = toString n.
Proof.
  apply (X4_integers_bounded
           {| uri := "/a.jpg";
              querystring := query [("quality", "85"); ("QUALITY", "250")];
              headers := Undefined |}
           (<["format" := "jpeg"]> (<["quality" := "100"]> ∅)) "quality" "100" 100).
  - right; right; left; reflexivity.
  - vm_compute. reflexivity.
  - vm_compute. reflexivity.
Defined.

(** X5.  Parameters the loop does not act on are as good as absent: when
    no parameter is named [hasOwnProperty], the handler gives the same
    result on the query string with every parameter removed that has an
    unrecognised name, a [format] value outside the supported list, or a
    width, height or quality that is not a positive integer. *)
Theorem X5_ineffective_parameters_dropped
    (req : Request) (qs : list (string * Entry)) :
  querystring req = Some qs ->
  ~ shadowed qs ->
  handler {| request := req |}
  = handler {| request := with_query req (List.filter (effective module_load) qs) |}.
Proof.
  intros Hq Hno. apply (handler_in_query module_load req qs); try assumption.
  - apply effective_unshadowed.
  - symmetry. apply iterate_filter.
Qed.

Lemma X5_witness :
  handler {| request := {| uri := "/a.jpg";
                           querystring :=
                             query [("utm", "x"); ("width", "-3"); ("format", "bmp");
                                    ("Height", "20")];
                           headers := Undefined |} |}
  = handler {| request := {| uri := "/a.jpg";
                             querystring := query [("Height", "20")];
                             headers := Undefined |} |}.
Proof.
  apply (X5_ineffective_parameters_dropped
           {| uri := "/a.jpg";
              querystring :=
                query [("utm", "x"); ("width", "-3"); ("format", "bmp");
                       ("Height", "20")];
              headers := Undefined |}
           [("utm", {| value := "x" |}); ("width", {| value := "-3" |});
            ("format", {| value := "bmp" |}); ("Height", {| value := "20" |})]).
  - reflexivity.
  - intros [e He]. vm_compute in He. discriminate He.
Defined.

(** X6.  When no two parameters have the same name up to letter case, the
    order in which the platform enumerates them does not matter: the
    handler gives the same result on every permutation of the query
    string. *)
Theorem X6_order_irrelevant (req : Request) (qs qs' : list (string * Entry)) :
  querystring req = Some qs ->
  Permutation qs qs' ->
  NoDup (map (fun p => toLowerCase (fst p)) qs) ->
  handler {| request := req |} = handler {| request := with_query req qs' |}.
Proof.
  intros Hq Hperm Hnd.
  assert (Hsh : shadowed qs <-> shadowed qs').
  { rewrite !shadowed_In. split; intros [e He]; exists e.
    - eapply Permutation_in; [exact Hperm | exact He].
    - eapply Permutation_in; [symmetry; exact Hperm | exact He]. }
  destruct (shadowed_dec qs) as [Hyes|Hno].
  - rewrite !handler_shadowed; [reflexivity | |].
    + unfold parameters. cbn [request with_query querystring default].
      now apply Hsh.
    + unfold parameters. cbn [request]. now rewrite Hq.
  - apply (handler_in_query module_load req qs); try assumption.
    + now rewrite <- Hsh.
    + now apply iterate_Permutation.
Qed.

Lemma X6_witness :
  handler {| request := {| uri := "/a.jpg";
                           querystring := query [("width", "10"); ("format", "png")];
                           headers := Null |} |}
  = handler {| request := {| uri := "/a.jpg";
                             querystring := query [("format", "png"); ("width", "10")];
                             headers := Null |} |}.
Proof.
  apply (X6_order_irrelevant
           {| uri := "/a.jpg";
              querystring := query [("width", "10"); ("format", "png")];
              headers := Null |}
           [("width", {| value := "10" |}); ("format", {| value := "png" |})]
           [("format", {| value := "png" |}); ("width", {| value := "10" |})]).
  - reflexivity.
  - apply perm_swap.
  - apply (bool_decide_unpack _). vm_compute. reflexivity.
Defined.

(** X7.  Letter case does not matter in parameter names, nor in the value
    of a [format] parameter.  When no two parameters have the same name up
    to letter case and none is named [hasOwnProperty], the query string
    with every name, and every format value, in lower case still has
    pairwise distinct names, and the handler gives the same result on
    it. *)
Theorem X7_letter_case_irrelevant (req : Request) (qs : list (string * Entry)) :
  querystring req = Some qs ->
  ~ shadowed qs ->
  NoDup (map (fun p => toLowerCase (fst p)) qs) ->
  NoDup (map fst (map canonical qs))
  /\ handler {| request := req |}
     = handler {| request := with_query req (map canonical qs) |}.
Proof.
  intros Hq Hno Hnd. split.
  - rewrite map_map. exact Hnd.
  - apply (handler_in_query module_load req qs); try assumption.
    + apply canonical_unshadowed.
    + symmetry. apply iterate_canonical.
Qed.

Lemma X7_witness :
  NoDup (map fst (map canonical
                    [("WIDTH", {| value := "10" |}); ("Format", {| value := "PNG" |})]))
  /\ handler {| request := {| uri := "/a.jpg";
                              querystring := query [("WIDTH", "10"); ("Format", "PNG")];
                              headers := Null |} |}
     = handler {| request := {| uri := "/a.jpg";
                                querystring := query [("width", "10"); ("format", "png")];
                                headers := Null |} |}.
Proof.
  apply (X7_letter_case_irrelevant
           {| uri := "/a.jpg";
              querystring := query [("WIDTH", "10"); ("Format", "PNG")];
              headers := Null |}
           [("WIDTH", {| value := "10" |}); ("Format", {| value := "PNG" |})]).
  - reflexivity.
  - intros [e He]. vm_compute in He. discriminate He.
  - apply (bool_decide_unpack _). vm_compute. reflexivity.
Defined.

(** X8.  What the handler computes, said without the loop.  Whenever it
    produces its operations mapping: width, height and quality hold the
    clamped value of the last parameter of that name (up to letter case)
    that [parsePositiveInt] accepts, and are absent when there is none; the
    format is the lower-cased value of the last [format] parameter with a
    supported value, and the negotiated one when there is none or when
    that value is auto. *)
Theorem X8_operations_spec (req : Request) (ops : gmap string string) :
  operations module_load req = Normal ops ->
  ops !! "width" = integer_spec module_load "width" 4000 (parameters req)
  /\ ops !! "height" = integer_spec module_load "height" 4000 (parameters req)
  /\ ops !! "quality" = integer_spec module_load "quality" 100 (parameters req)
  /\ match formatFromQuery_spec module_load (parameters req) with
     | Some f => ops !! "format" = Some f
     | None => exists f, getBestFormatFromAcceptHeader (headers req) = Normal f
                         /\ ops !! "format" = Some f
     end.
Proof.
  intros Hops.
  assert (Hint : forall key bound,
             In (key, bound) (bounds module_load) ->
             ops !! key = integer_spec module_load key bound (parameters req)).
  { intros key bound Hin.
    rewrite (operations_lookup_key module_load req ops key bound Hin Hops).
    apply iterate_integer_spec; [exact Hin|].
    destruct Hin as [[= _ <-]|[[= _ <-]|[[= _ <-]|[]]]]; simpl; lia. }
  split; [apply Hint; simpl; tauto|].
  split; [apply Hint; simpl; tauto|].
  split; [apply Hint; simpl; tauto|].
  destruct (operations_format _ _ _ Hops) as (f & Hf & Hlook).
  rewrite iterate_format_spec in Hf.
  destruct (formatFromQuery_spec module_load (parameters req)) as [x|] eqn:Hx.
  - unfold finalFormat in Hf. destruct (truthy (Str x)) eqn:Ht; [congruence|].
    exfalso. unfold formatFromQuery_spec in Hx.
    destruct (last _) as [p|] eqn:Hlast; [|discriminate].
    apply last_Some_elem_of, list_elem_of_In, filter_In in Hlast as [_ Hw].
    unfold writes in Hw. apply andb_true_iff in Hw as [Hname Heff].
    unfold effective in Heff. rewrite Hname in Heff.
    unfold accepted_format in Heff. apply andb_true_iff in Heff as [Hv _].
    destruct (String.eqb (toLowerCase (value (snd p))) "auto"); [discriminate|].
    injection Hx as <-. destruct (value (snd p)); discriminate.
  - exists f. split; [exact Hf | exact Hlook].
Qed.

Lemma X8_witness :
  Some "200" = integer_spec module_load "width" 4000 (parameters two_widths)
  /\ None = integer_spec module_load "height" 4000 (parameters two_widths)
  /\ None = integer_spec module_load "quality" 100 (parameters two_widths)
  /\ exists f, getBestFormatFromAcceptHeader (headers two_widths) = Normal f
               /\ Some "webp" = Some f.
Proof.
  assert (Hops : operations module_load two_widths
                 = Normal (<["format" := "webp"]> (<["width" := "200"]> ∅)))
    by (vm_compute; reflexivity).
  destruct (X8_operations_spec two_widths _ Hops) as (Hw & Hh & Hq & Hf).
  split; [exact Hw|]. split; [exact Hh|]. split; [exact Hq|]. exact Hf.
Defined.

(* ===================================================================== *)
(** * Failure, and the shape of the rewritten path *)
(* ===================================================================== *)

Section Failure.

Lemma completion_cases {A} (c : completion A) :
  c = Throw TypeError <-> ~ returns c.
Proof.
  destruct c as [a|[]]; split.
  - discriminate.
  - intros H. exfalso. apply H. now exists a.
  - intros _ [a Ha]. discriminate.
  - reflexivity.
Qed.

Lemma negotiator_throws (h : val) :
  getBestFormatFromAcceptHeader h = Throw TypeError
  <-> h = Null
      \/ (truthy (acceptValue h) = true /\ has_indexOf (acceptValue h) = false).
Proof.
  destruct h as [| |b|n|s|items|props];
    try (split; [discriminate | intros [H | [H _]]; discriminate H]).
  - split; [now left | reflexivity].
  - unfold getBestFormatFromAcceptHeader, acceptValue. simpl.
    destruct (own "accept" props) as [a|]; simpl;
      [|split; [discriminate | intros [H | [H _]]; discriminate H]].
    destruct a as [| |b|n|s|items|entry]; simpl;
      try (split; [discriminate | intros [H | [H _]]; discriminate H]).
    + destruct b; simpl; split; try discriminate;
        intros [H | [H _]]; discriminate H.
    + destruct (n =? 0); simpl; split; try discriminate;
        intros [H | [H _]]; discriminate H.
    + destruct (String.eqb s ""); simpl; split; try discriminate;
        intros [H | [H _]]; discriminate H.
    + destruct (own "value" entry) as [v|]; simpl;
        [|split; [discriminate | intros [H | [H _]]; discriminate H]].
      destruct (truthy v) eqn:Ht; simpl;
        [|split; [discriminate | intros [H | [H _]]; discriminate H]].
      destruct v as [| |b|n|s|items|o]; simpl; try discriminate Ht.
      * split; [intros _; right; now split | reflexivity].
      * split; [intros _; right; now split | reflexivity].
      * split; [|intros [H | [_ H]]; discriminate H].
        destruct (includes "image/webp" s); discriminate.
      * split; [|intros [H | [_ H]]; discriminate H].
        destruct (has_item "image/webp" items); discriminate.
      * split; [intros _; right; now split | reflexivity].
Qed.

Lemma finalFormat_returns (fq : option string) (h : val) :
  explicit module_load fq ->
  returns (finalFormat fq h)
  <-> is_Some fq \/ returns (getBestFormatFromAcceptHeader h).
Proof.
  intros Hfq. unfold finalFormat. destruct fq as [f|].
  - assert (Hf : f <> "").
    { destruct (Hfq f eq_refl) as [Hin _]. intros ->.
      simpl in Hin. intuition discriminate. }
    rewrite (proj2 (truthy_Str f) Hf). split; [eauto | intros _; now exists f].
  - split; [now right | intros [[? H]| H]; [discriminate | exact H]].
Qed.

End Failure.

(** X9.  On the values an event can carry, the negotiator fails, with a
    [TypeError], exactly when the headers are [null], or the Accept value
    is truthy and has no [indexOf] method, being neither a string nor an
    array; on every other input it returns. *)
Theorem X9_negotiator_failure (h : val) :
  getBestFormatFromAcceptHeader h = Throw TypeError
  <-> h = Null
      \/ (truthy (acceptValue h) = true /\ has_indexOf (acceptValue h) = false).
Proof. apply negotiator_throws. Qed.

(** A boolean Accept value fails; an array with the item [image/webp]
    does not. *)
Lemma X9_witness :
  getBestFormatFromAcceptHeader (Obj [("accept", Obj [("value", Bool true)])])
  = Throw TypeError
  /\ getBestFormatFromAcceptHeader
       (Obj [("accept", Obj [("value", Arr [Str "image/webp"])])])
     <> Throw TypeError.
Proof.
  split.
  - apply (proj2 (X9_negotiator_failure
                    (Obj [("accept", Obj [("value", Bool true)])]))).
    right. split; reflexivity.
  - intros H.
    apply (proj1 (X9_negotiator_failure
                    (Obj [("accept", Obj [("value", Arr [Str "image/webp"])])])))
      in H.
    destruct H as [H | [_ H]]; discriminate H.
Defined.

(** X10.  The handler fails, with a [TypeError], exactly in two cases: a
    query parameter is named [hasOwnProperty]; or no [format] parameter
    decides the format (none has a supported value, or the last such value
    is auto) and the negotiator fails on the headers. *)
Theorem X10_handler_failure (e : Event) :
  handler e = Throw TypeError
  <-> shadowed (parameters (request e))
      \/ (formatFromQuery_spec module_load (parameters (request e)) = None
          /\ getBestFormatFromAcceptHeader (headers (request e)) = Throw TypeError).
Proof.
  rewrite completion_cases, handler_returns, iterate_format_spec.
  assert (Hex : explicit module_load
                  (formatFromQuery_spec module_load (parameters (request e)))).
  { rewrite <- iterate_format_spec. apply iterate_explicit. intros f. discriminate. }
  rewrite (finalFormat_returns _ _ Hex), completion_cases.
  destruct (shadowed_dec (parameters (request e))) as [Hsh|Hno];
    [split; [now left | intros _ [Hno _]; contradiction]|].
  destruct (formatFromQuery_spec module_load (parameters (request e))) as [f|].
  - split.
    + intros H. exfalso. apply H. split; [exact Hno | left; eauto].
    + intros [Hsh | [Hnone _]]; [contradiction | discriminate].
  - split.
    + intros H. right. split; [reflexivity|]. intros Hr. apply H.
      split; [exact Hno | now right].
    + intros [Hsh | [_ Hthrow]]; [contradiction|].
      intros [_ [[f Hf] | Hr]]; [discriminate | contradiction].
Qed.

Lemma X10_witness :
  handler {| request := {| uri := "/a.jpg";
                           querystring := query [("format", "Auto")];
                           headers := Null |} |}
  = Throw TypeError.
Proof.
  apply (proj2 (X10_handler_failure
                  {| request := {| uri := "/a.jpg";
                                   querystring := query [("format", "Auto")];
                                   headers := Null |} |})).
  right. split; reflexivity.
Defined.

Section Token.

Lemma append_empty (a : string) : a ++ "" = a.
Proof.
  induction a as [|x a IH]; [reflexivity|].
  change (String x (a ++ "") = String x a). now rewrite IH.
Qed.

Lemma join_cons (sep x : string) (l : list string) :
  exists rest, join sep (x :: l) = x ++ rest.
Proof.
  unfold join. destruct l as [|y l]; simpl.
  - exists "". now rewrite append_empty.
  - eauto.
Qed.

Lemma append_assoc (a b c : string) : (a ++ b) ++ c = a ++ (b ++ c).
Proof.
  induction a as [|x a IH]; [reflexivity|].
  change (String x ((a ++ b) ++ c) = String x (a ++ (b ++ c))). now rewrite IH.
Qed.

Lemma safe_not_separator (c : ascii) :
  unreserved c || Ascii.eqb c "%" = true -> ~ In c separators.
Proof.
  intros Hsafe Hin. unfold separators in Hin. simpl in Hin.
  repeat destruct Hin as [<- | Hin]; try discriminate Hsafe. exact Hin.
Qed.

Lemma operations_format_six (req : Request) (ops : gmap string string) :
  operations module_load req = Normal ops ->
  exists f, ops !! "format" = Some f
            /\ In f ["jpeg"; "webp"; "avif"; "png"; "svg"; "gif"].
Proof.
  intros Hops. destruct (operations_format _ _ _ Hops) as (f & Hf & Hlook).
  exists f. split; [exact Hlook|].
  apply (finalFormat_range module_load) in Hf.
  - destruct Hf as [[Hin Hauto] | [-> | ->]]; [| now left | right; now left].
    destruct Hin as [<- | Hin]; [congruence | exact Hin].
  - apply iterate_explicit. intros f'. discriminate.
Qed.

End Token.

(** X11.  The handler is not idempotent.  Applied to its own output, whose
    query string is empty, it negotiates the format from the headers again
    and appends one more segment, [/format%3D] followed by that format, to
    the path already rewritten; it fails when the negotiator does. *)
Theorem X11_second_invocation (e : Event) (r : Request) :
  handler e = Normal r ->
  handler {| request := r |}
  = (f ← getBestFormatFromAcceptHeader (headers (request e));
     Normal {| uri := uri r ++ "/format%3D" ++ f;
               querystring := Some [];
               headers := headers (request e) |}).
Proof.
  intros H. apply handler_in_Normal in H as (ops & _ & ->).
  assert (Hempty : forall u h,
             operations module_load {| uri := u; querystring := Some []; headers := h |}
             = (f ← getBestFormatFromAcceptHeader h; Normal (<["format" := f]> ∅)))
    by reflexivity.
  unfold handler, handler_in. cbn [request uri headers]. rewrite Hempty.
  destruct (getBestFormatFromAcceptHeader (headers (request e))) as [f|err] eqn:Hf;
    [|reflexivity].
  destruct (negotiator_range _ _ Hf) as [-> | ->]; reflexivity.
Qed.

Lemma X11_witness :
  handler {| request := cat_rewritten (accept "image/webp") |}
  = (f ← getBestFormatFromAcceptHeader (headers (request (cat (accept "image/webp"))));
     Normal {| uri := uri (cat_rewritten (accept "image/webp")) ++ "/format%3D" ++ f;
               querystring := Some [];
               headers := headers (request (cat (accept "image/webp"))) |}).
Proof.
  apply (X11_second_invocation (cat (accept "image/webp"))).
  vm_compute. reflexivity.
Defined.

(** X12.  Whenever the handler returns, the rewritten path is the original
    path followed by [/format%3D] and further characters that are all
    unreserved or a percent sign: the appended token has no slash, question
    mark, hash, ampersand, equals sign, comma or space, so it is one path
    segment and the format pair comes first in it. *)
Theorem X12_token_shape (e : Event) (r : Request) :
  handler e = Normal r ->
  exists rest,
    uri r = uri (request e) ++ "/format%3D" ++ rest
    /\ forallb (fun c => unreserved c || Ascii.eqb c "%") (chars rest) = true
    /\ forall c, In c (chars ("format%3D" ++ rest)) -> ~ In c separators.
Proof.
  intros H. apply handler_in_Normal in H as (ops & Hops & ->).
  destruct (operations_format _ _ _ Hops) as (f & Hf & Hlook).
  apply finalFormat_truthy in Hf.
  assert (Harr : exists l, normalizedOperationsArray ops
                           = ("format=" ++ encodeURIComponent f) :: l).
  { unfold normalizedOperationsArray, push_if. rewrite Hlook.
    rewrite (proj2 (truthy_Str f) Hf). simpl. eauto. }
  destruct Harr as [l ->].
  destruct (join_cons "," ("format=" ++ encodeURIComponent f) l) as [tl ->].
  rewrite append_assoc, encode_app.
  exists (encodeURIComponent (encodeURIComponent f ++ tl)).
  split; [reflexivity|]. split; [apply encode_chars|].
  intros c Hc. apply safe_not_separator.
  rewrite chars_app in Hc. apply in_app_or in Hc as [Hc|Hc].
  - simpl in Hc. repeat destruct Hc as [<- | Hc]; try reflexivity. destruct Hc.
  - pose proof (encode_chars (encodeURIComponent f ++ tl)) as Hall.
    rewrite forallb_forall in Hall. now apply Hall.
Qed.

Lemma X12_witness :
  exists rest,
    uri (cat_rewritten Null) = uri (request (cat Null)) ++ "/format%3D" ++ rest
    /\ forallb (fun c => unreserved c || Ascii.eqb c "%") (chars rest) = true
    /\ forall c, In c (chars ("format%3D" ++ rest)) -> ~ In c separators.
Proof.
  apply (X12_token_shape (cat Null) (cat_rewritten Null)).
  vm_compute. reflexivity.
Defined.

(* ===================================================================== *)
(** * Normalising what is already normal *)
(* ===================================================================== *)

Section Renormalise.

Lemma loop_body_written (key v : string) (bound : Z) (m : gmap string string)
    (f : option string) :
  In (key, bound) (bounds module_load) ->
  (exists n, 1 <= n <= bound /\ v = toString n) ->
  loop_body module_load key {| value := v |} (m, f) = (<[key := v]> m, f).
Proof.
  intros Hin (n & Hn & ->).
  rewrite (loop_body_bound module_load key bound); [|exact Hin|].
  - cbn [value]. rewrite (proj2 (parse_toString n (Some bound) (proj1 Hn))).
    rewrite Z.min_l by lia. now rewrite assign_if_Some by lia.
  - destruct Hin as [[= <- _]|[[= <- _]|[[= <- _]|[]]]]; reflexivity.
Qed.

Lemma loop_body_format_written (f : string) (m : gmap string string)
    (fq : option string) :
  In f ["jpeg"; "webp"; "avif"; "png"; "svg"; "gif"] ->
  loop_body module_load "format" {| value := f |} (m, fq) = (m, Some f).
Proof.
  intros Hin. simpl in Hin.
  repeat destruct Hin as [<- | Hin]; try reflexivity. destruct Hin.
Qed.

Lemma iterate_nil (g : Globals) (st : LoopState) : iterate g [] st = st.
Proof. reflexivity. Qed.

End Renormalise.

(** X13.  Normalising is idempotent on its own result.  When the handler
    has produced an operations mapping, a request whose query parameters
    are exactly the pairs of that mapping (format, quality, width, height,
    as [requery] lists them) produces the same mapping again, for every
    path and every headers. *)
Theorem X13_renormalise
    (req : Request) (ops : gmap string string) (u : string) (h : val) :
  operations module_load req = Normal ops ->
  operations module_load
    {| uri := u; querystring := Some (requery ops); headers := h |}
  = Normal ops.
Proof.
  intros Hops.
  destruct (operations_format_six _ _ Hops) as (f & Hlook & Hsix).
  assert (Hf : f <> "") by (intros ->; simpl in Hsix; intuition discriminate).
  pose proof (fun k => operations_keys req ops k Hops) as Hkeys.
  pose proof (fun key s bound Hin => integers_bounded req ops key s bound Hin Hops)
    as Hint.
  assert (Hq := Hint "quality"). assert (Hw := Hint "width").
  assert (Hh := Hint "height"). clear Hint.
  unfold requery. cbn [flat_map]. rewrite Hlook.
  destruct (ops !! "quality") as [q|] eqn:Eq;
  destruct (ops !! "width") as [w|] eqn:Ew;
  destruct (ops !! "height") as [ht|] eqn:Eh;
  cbn [app];
  (rewrite operations_unshadowed
     by (unfold parameters, shadowed; cbn; intros [? ?]; discriminate));
  unfold parameters; cbn [querystring headers default from_option id];
  rewrite ?iterate_cons, iterate_nil;
  rewrite loop_body_format_written by exact Hsix;
  rewrite ?iterate_cons;
  try rewrite (loop_body_written "quality" q 100)
    by (first [ simpl; tauto | eapply Hq; [simpl; tauto | reflexivity] ]);
  rewrite ?iterate_cons;
  try rewrite (loop_body_written "width" w 4000)
    by (first [ simpl; tauto | eapply Hw; [simpl; tauto | reflexivity] ]);
  rewrite ?iterate_cons;
  try rewrite (loop_body_written "height" ht 4000)
    by (first [ simpl; tauto | eapply Hh; [simpl; tauto | reflexivity] ]);
  rewrite ?iterate_nil; cbn [fst snd];
  rewrite finalFormat_explicit by exact Hf;
  simpl mbind; f_equal; apply map_eq; intros k;
  rewrite ?lookup_insert;
  repeat case_decide; subst; try congruence;
  rewrite ?lookup_empty;
  (destruct (ops !! k) as [x|] eqn:Ek; [|reflexivity]);
  (assert (Hk : In k ["format"; "quality"; "width"; "height"])
     by (apply Hkeys; rewrite Ek; eauto));
  simpl in Hk; intuition congruence.
Qed.

Lemma X13_witness :
  operations module_load
    {| uri := "/other.png";
       querystring := Some (requery (<["format" := "webp"]> (<["width" := "200"]> ∅)));
       headers := Null |}
  = Normal (<["format" := "webp"]> (<["width" := "200"]> ∅)).
Proof.
  apply (X13_renormalise two_widths). vm_compute. reflexivity.
Defined.

(* ===================================================================== *)
(** * The path as a key *)
(* ===================================================================== *)

Section Injectivity.

Lemma append_inj_l (a x y : string) : a ++ x = a ++ y -> x = y.
Proof.
  induction a as [|c a IH]; [trivial|].
  change (String c (a ++ x) = String c (a ++ y) -> x = y).
  intros [= H]. auto.
Qed.

Lemma hex_digit_code (n : N) :
  (n < 16)%N -> code (hex_digit n) = if (n <? 10)%N then (48 + n)%N else (55 + n)%N.
Proof.
  intros Hn. unfold hex_digit, code.
  destruct (n <? 10)%N; apply N_ascii_embedding; lia.
Qed.

Lemma hex_digit_inj (n1 n2 : N) :
  (n1 < 16)%N -> (n2 < 16)%N -> hex_digit n1 = hex_digit n2 -> n1 = n2.
Proof.
  intros H1 H2 Heq. apply (f_equal code) in Heq.
  rewrite !hex_digit_code in Heq by assumption.
  destruct (N.ltb_spec n1 10), (N.ltb_spec n2 10); lia.
Qed.

Lemma percent_inj (c1 c2 : ascii) : percent c1 = percent c2 -> c1 = c2.
Proof.
  unfold percent. intros [= Hhi Hlo].
  pose proof (N_ascii_bounded c1) as B1. pose proof (N_ascii_bounded c2) as B2.
  fold (code c1) in B1. fold (code c2) in B2.
  apply hex_digit_inj in Hhi;
    [| apply N.Div0.div_lt_upper_bound; lia | apply N.Div0.div_lt_upper_bound; lia].
  apply hex_digit_inj in Hlo; [| apply N.mod_lt; lia | apply N.mod_lt; lia].
  assert (Hc : code c1 = code c2).
  { rewrite (N.div_mod (code c1) 16), (N.div_mod (code c2) 16) by lia.
    now rewrite Hhi, Hlo. }
  unfold code in Hc. apply (f_equal ascii_of_N) in Hc.
  now rewrite !ascii_N_embedding in Hc.
Qed.

Lemma percent_unreserved : unreserved "%" = false.
Proof. reflexivity. Qed.

(** Percent-encoding loses nothing. *)
Lemma encode_inj (s1 s2 : string) :
  encodeURIComponent s1 = encodeURIComponent s2 -> s1 = s2.
Proof.
  revert s2. induction s1 as [|c1 r1 IH]; intros [|c2 r2]; simpl.
  - reflexivity.
  - destruct (unreserved c2); discriminate.
  - destruct (unreserved c1); discriminate.
  - destruct (unreserved c1) eqn:H1, (unreserved c2) eqn:H2.
    + intros [= -> H]. f_equal. auto.
    + intros [= -> _]. rewrite percent_unreserved in H1. discriminate.
    + intros [= <- _]. rewrite percent_unreserved in H2. discriminate.
    + intros [= Hhi Hlo H]. f_equal; [|auto].
      apply percent_inj. unfold percent. now rewrite Hhi, Hlo.
Qed.

Lemma comma_free_cons (c : ascii) (s : string) :
  comma_free (String c s) = true <-> c <> ","%char /\ comma_free s = true.
Proof.
  unfold comma_free, chars. simpl. rewrite andb_true_iff.
  destruct (Ascii.eqb_spec c ","); simpl; intuition congruence.
Qed.

Lemma split_comma (a b r s : string) :
  comma_free a = true -> comma_free b = true ->
  a ++ String "," r = b ++ String "," s -> a = b /\ r = s.
Proof.
  revert b. induction a as [|x a IH]; intros [|y b] Ha Hb.
  - intros [= ->]. now split.
  - change (String "," r = String y (b ++ String "," s) -> "" = String y b /\ r = s).
    intros [= <- _]. apply comma_free_cons in Hb as [Hb _]. congruence.
  - change (String x (a ++ String "," r) = String "," s -> String x a = "" /\ r = s).
    intros [= -> _]. apply comma_free_cons in Ha as [Ha _]. congruence.
  - change (String x (a ++ String "," r) = String y (b ++ String "," s)
            -> String x a = String y b /\ r = s).
    intros [= -> H]. apply comma_free_cons in Ha as [_ Ha].
    apply comma_free_cons in Hb as [_ Hb].
    destruct (IH b Ha Hb H) as [-> ->]. now split.
Qed.

Lemma comma_inside (a b s : string) :
  comma_free a = true -> a = b ++ String "," s -> False.
Proof.
  revert a. induction b as [|y b IH]; intros a Ha.
  - intros ->. apply comma_free_cons in Ha as [Ha _]. congruence.
  - change (a = String y (b ++ String "," s) -> False). intros ->.
    apply comma_free_cons in Ha as [_ Ha]. now apply (IH _ Ha).
Qed.

(** Joining comma-free strings with commas loses nothing. *)
Lemma join_inj (l1 l2 : list string) :
  Forall (fun x => comma_free x = true) l1 ->
  Forall (fun x => comma_free x = true) l2 ->
  l1 <> [] -> l2 <> [] ->
  join "," l1 = join "," l2 -> l1 = l2.
Proof.
  unfold join. revert l2.
  induction l1 as [|x1 l1 IH]; intros l2 H1 H2 N1 N2; [congruence|].
  destruct l2 as [|x2 l2]; [congruence|].
  apply Forall_cons in H1 as [Hx1 H1]. apply Forall_cons in H2 as [Hx2 H2].
  destruct l1 as [|y1 l1], l2 as [|y2 l2].
  - simpl. now intros ->.
  - change (x1 = x2 ++ String "," (String.concat "," (y2 :: l2)) -> [x1] = x2 :: y2 :: l2).
    intros H. now destruct (comma_inside _ _ _ Hx1 H).
  - change (x1 ++ String "," (String.concat "," (y1 :: l1)) = x2 -> x1 :: y1 :: l1 = [x2]).
    intros H. symmetry in H. now destruct (comma_inside _ _ _ Hx2 H).
  - change (x1 ++ String "," (String.concat "," (y1 :: l1))
            = x2 ++ String "," (String.concat "," (y2 :: l2))
            -> x1 :: y1 :: l1 = x2 :: y2 :: l2).
    intros H. apply split_comma in H as [-> H]; try assumption.
    f_equal. apply IH; try assumption; discriminate.
Qed.

Lemma safe_comma_free (s : string) :
  forallb (fun c => unreserved c || Ascii.eqb c "%") (chars s) = true ->
  comma_free s = true.
Proof.
  unfold comma_free. rewrite !forallb_forall. intros H c Hc.
  specialize (H c Hc). destruct (Ascii.eqb_spec c ","); [|reflexivity].
  subst c. discriminate H.
Qed.

Lemma push_if_comma_free (ops : gmap string string) (key : string) :
  In key ["format"; "quality"; "width"; "height"] ->
  Forall (fun x => comma_free x = true) (push_if ops key).
Proof.
  intros Hkey. unfold push_if. destruct (ops !! key) as [v|]; [|constructor].
  destruct (truthy (Str v)); constructor; [|constructor].
  unfold comma_free. rewrite !chars_app, !forallb_app.
  fold (comma_free (encodeURIComponent v)).
  rewrite (safe_comma_free _ (encode_chars v)).
  simpl in Hkey.
  repeat destruct Hkey as [<- | Hkey]; try reflexivity. destruct Hkey.
Qed.

Lemma array_comma_free (ops : gmap string string) :
  Forall (fun x => comma_free x = true) (normalizedOperationsArray ops).
Proof.
  unfold normalizedOperationsArray.
  repeat apply Forall_app_2; apply push_if_comma_free; simpl; tauto.
Qed.

Lemma tagged_inj (key v1 v2 : string) :
  key ++ "=" ++ encodeURIComponent v1 = key ++ "=" ++ encodeURIComponent v2 ->
  v1 = v2.
Proof. intros H. now apply append_inj_l, append_inj_l, encode_inj in H. Qed.

Lemma pair_cons_inj (x y : string) (l l' : list string) :
  x :: l = y :: l' -> x = y /\ l = l'.
Proof. intros [= -> ->]. now split. Qed.

(** The array determines the four entries of a mapping with truthy
    values. *)
Lemma array_inj (ops1 ops2 : gmap string string) :
  all_truthy ops1 -> all_truthy ops2 ->
  normalizedOperationsArray ops1 = normalizedOperationsArray ops2 ->
  ops1 !! "format" = ops2 !! "format"
  /\ ops1 !! "quality" = ops2 !! "quality"
  /\ ops1 !! "width" = ops2 !! "width"
  /\ ops1 !! "height" = ops2 !! "height".
Proof.
  intros T1 T2 Harr.
  rewrite !array_spec in Harr by assumption.
  cbn [flat_map] in Harr. unfold spec_pair in Harr.
  change (encodeURIComponent "format") with "format" in Harr.
  change (encodeURIComponent "quality") with "quality" in Harr.
  change (encodeURIComponent "width") with "width" in Harr.
  change (encodeURIComponent "height") with "height" in Harr.
  destruct (ops1 !! "format") as [f1|], (ops1 !! "quality") as [q1|],
           (ops1 !! "width") as [w1|], (ops1 !! "height") as [h1|],
           (ops2 !! "format") as [f2|], (ops2 !! "quality") as [q2|],
           (ops2 !! "width") as [w2|], (ops2 !! "height") as [h2|];
    cbn [app] in Harr; try discriminate Harr;
    repeat match goal with
    | H : _ :: _ = _ :: _ |- _ => apply pair_cons_inj in H as [? H]
    end;
    repeat match goal with
    | H : ?k ++ "=" ++ encodeURIComponent _ = ?k ++ "=" ++ encodeURIComponent _ |- _ =>
        apply tagged_inj in H; subst
    | H : _ ++ "=" ++ encodeURIComponent _ = _ ++ "=" ++ encodeURIComponent _ |- _ =>
        discriminate H
    end;
    repeat split; reflexivity.
Qed.

End Injectivity.

(** X14.  The rewritten path is a faithful key.  Two requests for the same
    original path that the handler rewrites to the same path have the same
    operations mapping: distinct operations never share a path. *)
Theorem X14_path_determines_operations (e1 e2 : Event) (r1 r2 : Request) :
  handler e1 = Normal r1 ->
  handler e2 = Normal r2 ->
  uri (request e1) = uri (request e2) ->
  uri r1 = uri r2 ->
  operations module_load (request e1) = operations module_load (request e2).
Proof.
  intros H1 H2 Hu Hr.
  apply handler_in_Normal in H1 as (ops1 & Hops1 & ->).
  apply handler_in_Normal in H2 as (ops2 & Hops2 & ->).
  cbn [uri] in Hr. rewrite Hu in Hr.
  apply append_inj_l, (append_inj_l "/"), encode_inj in Hr.
  assert (Hne : forall req ops, operations module_load req = Normal ops ->
                                normalizedOperationsArray ops <> []).
  { intros req ops Hops Hnil.
    pose proof (operations_truthy _ _ _ Hops) as Ht.
    destruct (operations_format _ _ _ Hops) as (f & _ & Hlook).
    rewrite array_spec in Hnil by exact Ht. cbn [flat_map] in Hnil.
    unfold spec_pair in Hnil at 1. rewrite Hlook in Hnil. discriminate Hnil. }
  apply join_inj in Hr;
    [| apply array_comma_free | apply array_comma_free
     | now apply (Hne (request e1)) | now apply (Hne (request e2))].
  apply array_inj in Hr as (Hf & Hq & Hw & Hh);
    [| now apply (operations_truthy _ _ _ Hops1)
     | now apply (operations_truthy _ _ _ Hops2)].
  rewrite Hops1, Hops2. f_equal. apply map_eq. intros k.
  destruct (decide (In k ["format"; "quality"; "width"; "height"])) as [Hk|Hk].
  - simpl in Hk. repeat destruct Hk as [<- | Hk]; try assumption. destruct Hk.
  - destruct (ops1 !! k) as [x|] eqn:E1.
    + exfalso. apply Hk, (operations_keys _ _ _ Hops1). rewrite E1. eauto.
    + destruct (ops2 !! k) as [y|] eqn:E2; [|reflexivity].
      exfalso. apply Hk, (operations_keys _ _ _ Hops2). rewrite E2. eauto.
Qed.

(** [?WIDTH=0200px&x=1] and [?width=200] on the same path, with different
    headers that both accept webp. *)
Lemma X14_witness :
  operations module_load
    {| uri := "/a.jpg"; querystring := query [("WIDTH", "0200px"); ("x", "1")];
       headers := accept "image/webp" |}
  = operations module_load
      {| uri := "/a.jpg"; querystring := query [("width", "200")];
         headers := accept "text/html,image/webp" |}.
Proof.
  apply (X14_path_determines_operations
           {| request := {| uri := "/a.jpg";
                            querystring := query [("WIDTH", "0200px"); ("x", "1")];
                            headers := accept "image/webp" |} |}
           {| request := {| uri := "/a.jpg";
                            querystring := query [("width", "200")];
                            headers := accept "text/html,image/webp" |} |}
           {| uri := "/a.jpg/format%3Dwebp%2Cwidth%3D200";
              querystring := Some [];
              headers := accept "image/webp" |}
           {| uri := "/a.jpg/format%3Dwebp%2Cwidth%3D200";
              querystring := Some [];
              headers := accept "text/html,image/webp" |}).
  - vm_compute. reflexivity.
  - vm_compute. reflexivity.
  - reflexivity.
  - reflexivity.
Defined.

(* ===================================================================== *)
(** * What the headers can change *)
(* ===================================================================== *)

(** X15.  The headers reach the operations only through the negotiated
    format, and only when no query parameter decides the format: two
    headers give the same operations (or the same failure) as soon as a
    parameter decides the format, or the negotiator answers the same on
    both. *)
Theorem X15_headers_influence (req : Request) (h1 h2 : val) :
  is_Some (formatFromQuery_spec module_load (parameters req))
  \/ getBestFormatFromAcceptHeader h1 = getBestFormatFromAcceptHeader h2 ->
  operations module_load (with_headers req h1)
  = operations module_load (with_headers req h2).
Proof.
  intros H.
  assert (Hp : forall h, parameters (with_headers req h) = parameters req)
    by reflexivity.
  destruct (shadowed_dec (parameters req)) as [Hsh|Hno].
  - unfold operations. now rewrite !normalize_shadowed by (now rewrite Hp).
  - rewrite !operations_unshadowed by (now rewrite Hp).
    rewrite !Hp, iterate_format_spec. cbn [with_headers headers].
    assert (Hex : explicit module_load
                    (formatFromQuery_spec module_load (parameters req))).
    { rewrite <- iterate_format_spec. apply iterate_explicit. intros f. discriminate. }
    destruct (formatFromQuery_spec module_load (parameters req)) as [f|].
    + assert (Hf : f <> "").
      { destruct (Hex f eq_refl) as [Hin _]. intros ->.
        simpl in Hin. intuition discriminate. }
      now rewrite !finalFormat_explicit by exact Hf.
    + destruct H as [[? H] | H]; [discriminate|].
      cbn [finalFormat]. now rewrite H.
Qed.

Lemma X15_witness :
  operations module_load (with_headers mixed_case_webp Null)
  = operations module_load (with_headers mixed_case_webp (accept "image/avif"))
  /\ operations module_load (with_headers two_widths Undefined)
     = operations module_load (with_headers two_widths (accept "image/png")).
Proof.
  split.
  - apply X15_headers_influence. left. vm_compute. eauto.
  - apply X15_headers_influence. right. reflexivity.
Defined.

(* ===================================================================== *)
(** * Determinism *)
(* ===================================================================== *)

Section SameEvent.

Lemma own_Permutation {A} (k : string) (p1 p2 : list (string * A)) :
  Permutation p1 p2 -> NoDup (map fst p1) -> own k p1 = own k p2.
Proof.
  intros Hperm.
  induction Hperm as [|[k1 v1] l l' Hperm IH|[k1 v1] [k2 v2] l|l l' l'' H1 IH1 H2 IH2];
    intros Hnd.
  - reflexivity.
  - simpl in *. apply NoDup_cons in Hnd as [_ Hnd].
    destruct (String.eqb k1 k); [reflexivity | now apply IH].
  - simpl in *. apply NoDup_cons in Hnd as [Hnin _].
    destruct (String.eqb_spec k1 k) as [E1|_], (String.eqb_spec k2 k) as [E2|_];
      try reflexivity.
    exfalso. apply Hnin. rewrite E1, E2. now left.
  - rewrite IH1 by exact Hnd. apply IH2.
    assert (Hm : map fst l ≡ₚ map fst l') by now apply Permutation_map.
    now rewrite <- Hm.
Qed.

Lemma negotiator_same (h1 h2 : val) :
  same_headers h1 h2 ->
  getBestFormatFromAcceptHeader h1 = getBestFormatFromAcceptHeader h2.
Proof.
  intros [-> | (p1 & p2 & -> & -> & Hperm & Hnd)]; [reflexivity|].
  unfold getBestFormatFromAcceptHeader. simpl.
  now rewrite (own_Permutation "accept" p1 p2 Hperm Hnd).
Qed.

Lemma normalize_same (g : Globals) (r1 r2 : Request) :
  same_query (querystring r1) (querystring r2) ->
  NoDup (map (fun p => toLowerCase (fst p)) (parameters r1)) ->
  normalize g r1 = normalize g r2.
Proof.
  unfold same_query, parameters. intros Hq Hnd.
  destruct (querystring r1) as [l1|] eqn:E1, (querystring r2) as [l2|] eqn:E2;
    try contradiction; [|unfold normalize; now rewrite E1, E2].
  simpl in Hnd.
  assert (Hsh : shadowed l1 <-> shadowed l2).
  { rewrite !shadowed_In. split; intros [e He]; exists e.
    - eapply Permutation_in; [exact Hq | exact He].
    - eapply Permutation_in; [symmetry; exact Hq | exact He]. }
  assert (P1 : parameters r1 = l1) by (unfold parameters; now rewrite E1).
  assert (P2 : parameters r2 = l2) by (unfold parameters; now rewrite E2).
  destruct (shadowed_dec l1) as [Hyes|Hno].
  - rewrite !normalize_shadowed; [reflexivity | |].
    + rewrite P2. now apply Hsh.
    + now rewrite P1.
  - rewrite !normalize_unshadowed.
    + rewrite P1, P2. f_equal. now apply iterate_Permutation.
    + rewrite P2. now rewrite <- Hsh.
    + now rewrite P1.
Qed.

Lemma operations_same (g : Globals) (r1 r2 : Request) :
  same_request r1 r2 ->
  NoDup (map (fun p => toLowerCase (fst p)) (parameters r1)) ->
  operations g r1 = operations g r2.
Proof.
  intros (_ & Hq & Hh) Hnd. unfold operations.
  rewrite (normalize_same g r1 r2 Hq Hnd).
  destruct (normalize g r2) as [[m fq]|err]; [|reflexivity]. simpl.
  unfold finalFormat. now rewrite (negotiator_same _ _ Hh).
Qed.

End SameEvent.



